(** * Twin primes: the sieve engine, the naive baseline and the statistics

    A shallow embedding of [gemelos.py], [optimizado.py] and the analysis
    code of [estadisticas.py], with the properties of the engine proved
    over it.

    Conventions of the embedding.
    - Python integers are [Z].  A numpy boolean array is a [list bool]
      read with [!!] and written with [<[_:=_]>]; numpy's bounds checks,
      which stdpp's insert does not have, are written out in [getitem]
      and [setitem].
    - Code that can raise runs in the monad [M]: an exception or a value,
      threaded with the log of the arrays allocated so far.
    - [int(np.sqrt(n))] is the integer square root [Z.sqrt n] below
      [2^64] and a [TypeError] from there on; the scans that use it give
      the same answer for any bound from the root up.
    - float64 numbers are the [spec_float] of the kernel's specification
      of IEEE 754 binary64, where the rounding decides what is counted
      (the window edges of the ratio analysis).
    - Derived statistics (means, densities, estimates) are exact
      rationals [Q] or real numbers [R]: the values that the float64
      results round. *)

From Stdlib Require Import ZArith Znumtheory QArith Qpower Reals Qreals Lia Lra.
From Stdlib Require SpecFloat.
From stdpp Require Import base tactics option list sorting strings.

Local Open Scope Z_scope.

(** ** Python and numpy primitives *)

(** [range(a, b)] *)
Definition range (a b : Z) : list Z := seqZ a (b - a).

(** [len(xs)] *)
Definition len {A : Type} (xs : list A) : Z := Z.of_nat (length xs).

(** The exceptions numpy raises in the modelled code. [IndexError i n] is
    "index i is out of bounds for axis 0 with size n"; [ValueError] is
    "negative dimensions are not allowed"; [TypeError] is what a ufunc
    raises on a Python integer that no 64-bit type holds. *)
Inductive exn : Type :=
  | ValueError
  | IndexError (index size : Z)
  | TypeError.

(** The state: sizes of the arrays allocated so far, oldest first. *)
Definition allocs : Type := list Z.

Definition M (A : Type) : Type := allocs -> allocs * (exn + A).

Definition ret {A : Type} (a : A) : M A := fun s => (s, inr a).

Definition raise {A : Type} (e : exn) : M A := fun s => (s, inl e).

Definition bind {A B : Type} (m : M A) (k : A -> M B) : M B :=
  fun s =>
    match m s with
    | (s', inl e) => (s', inl e)
    | (s', inr a) => k a s'
    end.

Notation "'let*' x ':=' m 'in' k" := (bind m (fun x => k))
  (at level 10, x name, m at level 100, k at level 200).

(** Runs a computation from the empty allocation log. *)
Definition run {A : Type} (m : M A) : allocs * (exn + A) := m [].

(** [for x in xs: s = body(x, s)] *)
Fixpoint for_each {A S : Type} (xs : list A) (body : A -> S -> M S) (s : S) : M S :=
  match xs with
  | [] => ret s
  | x :: xs' => let* s' := body x s in for_each xs' body s'
  end.

(** [np.ones(n, dtype=bool)]: refuses a negative size, otherwise allocates. *)
Definition np_ones (n : Z) : M (list bool) :=
  fun s =>
    if n <? 0 then (s, inl ValueError)
    else (s ++ [n], inr (replicate (Z.to_nat n) true)).

(** numpy's index normalisation: a negative index counts from the end. *)
Definition norm_index (i n : Z) : option nat :=
  if (0 <=? i) && (i <? n) then Some (Z.to_nat i)
  else if (- n <=? i) && (i <? 0) then Some (Z.to_nat (i + n))
  else None.

(** [a[i]] *)
Definition getitem (a : list bool) (i : Z) : M bool :=
  match norm_index i (len a) with
  | Some k =>
      match a !! k with
      | Some b => ret b
      | None => raise (IndexError i (len a))
      end
  | None => raise (IndexError i (len a))
  end.

(** [a[i] = v] *)
Definition setitem (a : list bool) (i : Z) (v : bool) : M (list bool) :=
  match norm_index i (len a) with
  | Some k => ret (<[k:=v]> a)
  | None => raise (IndexError i (len a))
  end.

(** The indices of the slice [start:stop:step] of an array of [n] cells,
    for [0 <= start], [0 <= stop] and [0 < step]: the stop is clipped to
    [n], and a start at or beyond it selects nothing. *)
Definition slice_indices (start stop step n : Z) : list Z :=
  let stop' := Z.min stop n in
  map (fun k : nat => start + Z.of_nat k * step)
      (seq 0 (Z.to_nat ((stop' - start + step - 1) / step))).

(** Writes [v] in the cells [js], one after the other. *)
Definition escribir (v : bool) (js : list Z) (a : list bool) : list bool :=
  fold_left (fun acc j => <[Z.to_nat j:=v]> acc) js a.

(** [a[start:stop:step] = v]; a slice assignment never raises. *)
Definition setslice (a : list bool) (start stop step : Z) (v : bool) : list bool :=
  escribir v (slice_indices start stop step (len a)) a.

(** [np.where(a)[0]]: the indices holding [True], ascending. *)
Definition np_where (a : list bool) : list Z :=
  List.filter (fun i : Z => default false (a !! Z.to_nat i)) (range 0 (len a)).

(** ** gemelos.py: the naive baseline *)

Fixpoint es_primo_loop (n : Z) (divisores : list Z) : bool :=
  match divisores with
  | [] => true
  | i :: resto => if n mod i =? 0 then false else es_primo_loop n resto
  end.

(** [int(np.sqrt(n))] for a Python integer [n >= 0]. numpy converts the
    integer to a 64-bit machine number first: from [2^64] on there is
    none, and [np.sqrt] raises [TypeError]. Below, the result is taken as
    the integer square root; the float64 root, rounded to nearest, is
    never smaller and can be one more for [n] above [2^52], which
    [es_primo_loop_raiz] shows to be of no consequence for the scan. *)
Definition int_np_sqrt (n : Z) : exn + Z :=
  if n <? 2 ^ 64 then inr (Z.sqrt n) else inl TypeError.

Definition es_primo (n : Z) : exn + bool :=
  if n <? 2 then inr false
  else
    match int_np_sqrt n with
    | inl e => inl e
    | inr raiz => inr (es_primo_loop n (range 2 (raiz + 1)))
    end.

(** The boolean [es_primo(n)] returns for [n < 2^64], where it raises
    nothing ([es_primo_sin_error]). *)
Definition es_primo_valor (n : Z) : bool :=
  if n <? 2 then false
  else es_primo_loop n (range 2 (Z.sqrt n + 1)).

(** [generar_primos(limite)]. The loop would reach an [n] that [es_primo]
    refuses only after [2^64 - 2] iterations, so the list is built from
    the boolean of the test. *)
Definition generar_primos (limite : Z) : list Z :=
  fold_left (fun primos n => if es_primo_valor n then primos ++ [n] else primos)
            (range 2 (limite + 1)) [].

(** The scan shared by [encontrar_primos_gemelos] and
    [encontrar_primos_gemelos_optimizado]:
    [for i in range(len(primos) - 1): if primos[i+1] - primos[i] == 2: ...] *)
Definition pares_gemelos (primos : list Z) : list (Z * Z) :=
  fold_left
    (fun gemelos i =>
       let p := nth (Z.to_nat i) primos 0 in
       let q := nth (Z.to_nat (i + 1)) primos 0 in
       if q - p =? 2 then gemelos ++ [(p, q)] else gemelos)
    (range 0 (len primos - 1)) [].

Definition encontrar_primos_gemelos (limite : Z) : list (Z * Z) :=
  pares_gemelos (generar_primos limite).

(** ** optimizado.py: the sieve engine *)

Definition criba_eratostenes (limite : Z) : M (list Z) :=
  let* es_primo := np_ones (limite + 1) in
  let* es_primo := setitem es_primo 0 false in
  let* es_primo := setitem es_primo 1 false in
  let* es_primo :=
    for_each (range 2 (Z.sqrt limite + 1))
      (fun i es_primo =>
         let* marcado := getitem es_primo i in
         if marcado
         then ret (setslice es_primo (i * i) (limite + 1) i false)
         else ret es_primo)
      es_primo in
  ret (np_where es_primo).

Definition encontrar_primos_gemelos_optimizado (limite : Z) : M (list (Z * Z)) :=
  let* primos := criba_eratostenes limite in
  ret (pares_gemelos primos).

(** ** estadisticas.py: the analyses *)

(** [sum(1 for x in xs if cond(x))] *)
Definition contar {A : Type} (cond : A -> bool) (xs : list A) : Z :=
  len (List.filter cond xs).

(** [np.arange(0, stop, step)] on integers; numpy raises for a zero step,
    which is [None] here. The length is [max(0, ceil(stop / step))]. *)
Definition np_arange0 (stop step : Z) : option (list Z) :=
  if step =? 0 then None
  else Some (map (fun k => k * step) (range 0 (- ((- stop) / step)))).

(** The default of the parameter [tam_ventana] of [calcular_densidad]. *)
Definition tam_ventana_defecto : Z := 100.

(** [calcular_densidad(gemelos, limite, tam_ventana)]; the result is
    [(centros_ventanas, densidades)]. *)
Definition calcular_densidad (gemelos : list (Z * Z)) (limite tam_ventana : Z)
  : option (list Q * list Q) :=
  let primeros_primos := map fst gemelos in
  match np_arange0 limite tam_ventana with
  | None => None
  | Some ventanas =>
      Some (fold_left
              (fun '(centros_ventanas, densidades) i =>
                 let inicio := nth (Z.to_nat i) ventanas 0 in
                 let fin := nth (Z.to_nat (i + 1)) ventanas 0 in
                 let centro := (inject_Z (inicio + fin) / 2)%Q in
                 let count :=
                   contar (fun p => (inicio <=? p) && (p <? fin)) primeros_primos in
                 let densidad := (inject_Z count / inject_Z tam_ventana)%Q in
                 (centros_ventanas ++ [centro], densidades ++ [densidad]))
              (range 0 (len ventanas - 1)) ([], []))
  end.

(** The window size [visualizar_analisis_completo] passes:
    [max(limite // 100, 10)]. *)
Definition tam_ventana_analisis (limite : Z) : Z := Z.max (limite / 100) 10.

(** numpy's statistics, in exact arithmetic. *)
Definition suma (xs : list Z) : Z := fold_right Z.add 0 xs.

(** [np.mean(xs)] *)
Definition np_mean (xs : list Z) : Q := (inject_Z (suma xs) / inject_Z (len xs))%Q.

(** [np.median(xs)]: the middle of the sorted values, or the mean of the
    two middle ones when their number is even. *)
Definition np_median (xs : list Z) : Q :=
  let ordenados := merge_sort Z.le xs in
  let n := length xs in
  if Nat.even n
  then (inject_Z (nth (n / 2 - 1) ordenados 0%Z + nth (n / 2) ordenados 0%Z) / 2)%Q
  else inject_Z (nth (n / 2) ordenados 0).

(** The sum of the squared deviations from the mean. *)
Definition desvios_cuadrados (xs : list Z) : Q :=
  fold_right Qplus 0%Q (map (fun x => (inject_Z x - np_mean xs) ^ 2)%Q xs).

(** [np.var(xs)] with numpy's default [ddof = 0]: the divisor is the
    number of values. *)
Definition np_var (xs : list Z) : Q :=
  (desvios_cuadrados xs / inject_Z (len xs))%Q.

(** [np.std(xs)] with numpy's default [ddof = 0]. *)
Definition np_std (xs : list Z) : R := sqrt (Q2R (np_var xs)).

(** The tuple [(distancias, media, mediana, desviacion_estandar)]. *)
Record analisis_distancias : Type := {
  distancias : list Z;
  media : Q;
  mediana : Q;
  desviacion : R
}.

Definition analizar_distancias_entre_gemelos (gemelos : list (Z * Z))
  : analisis_distancias :=
  if len gemelos <? 2
  then {| distancias := []; media := 0; mediana := 0; desviacion := 0 |}
  else
    let distancias :=
      fold_left
        (fun distancias i =>
           let distancia :=
             fst (nth (Z.to_nat (i + 1)) gemelos (0, 0))
             - fst (nth (Z.to_nat i) gemelos (0, 0)) in
           distancias ++ [distancia])
        (range 0 (len gemelos - 1)) [] in
    {| distancias := distancias;
       media := np_mean distancias;
       mediana := np_median distancias;
       desviacion := np_std distancias |}.






(** IEEE 754 binary64 with rounding to nearest, ties to even, as the
    kernel's specification of floating-point numbers defines it. *)
Definition float64 : Type := SpecFloat.spec_float.

(** The conversion of an integer, as for [np.float64(z)] and for an
    [np.int64] compared with a float64. *)
Definition f64_of_Z (z : Z) : float64 := SpecFloat.binary_normalize 53 1024 z 0 false.

Definition f64_add : float64 -> float64 -> float64 := SpecFloat.SFadd 53 1024.

Definition f64_mul : float64 -> float64 -> float64 := SpecFloat.SFmul 53 1024.

Definition f64_div : float64 -> float64 -> float64 := SpecFloat.SFdiv 53 1024.

Definition f64_leb : float64 -> float64 -> bool := SpecFloat.SFleb.

Definition f64_ltb : float64 -> float64 -> bool := SpecFloat.SFltb.

(** [np.linspace(0, stop, num)] as numpy computes it, for [stop] an
    integer that float64 holds: a negative [num] raises [ValueError];
    otherwise [step = stop / (num - 1)], the points are
    [arange(0, num) * step] (plus the start, 0), and the last one is
    then overwritten with [stop] itself. The only point is 0 when
    [num = 1]. *)
Definition np_linspace0_f64 (stop num : Z) : exn + list float64 :=
  if num <? 0 then inl ValueError
  else if num <=? 1 then inr (map f64_of_Z (range 0 num))
  else
    let step := f64_div (f64_of_Z stop) (f64_of_Z (num - 1)) in
    inr (map (fun k => f64_mul (f64_of_Z k) step) (range 0 (num - 1))
         ++ [f64_of_Z stop]).

(** [inicio <= x < fin] with float64 edges and an [np.int64] [x], which
    numpy converts to float64 for each comparison. *)
Definition en_ventana_f64 (inicio fin : float64) (x : Z) : bool :=
  f64_leb inicio (f64_of_Z x) && f64_ltb (f64_of_Z x) fin.

(** Part 4 of [visualizar_analisis_completo] in float64: the share of the
    primes of each window that belong to a twin pair. The result is
    [(centros_ventanas, proporciones)]. *)
Definition proporcion_en_ventanas_f64 (todos_primos : list Z) (gemelos : list (Z * Z))
    (limite : Z) : exn + (list float64 * list float64) :=
  match np_linspace0_f64 limite (Z.min 100 (limite / 10)) with
  | inl e => inl e
  | inr ventanas =>
      inr (fold_left
             (fun '(centros_ventanas, proporciones) i =>
                let inicio := nth (Z.to_nat i) ventanas (f64_of_Z 0) in
                let fin := nth (Z.to_nat (i + 1)) ventanas (f64_of_Z 0) in
                let centro := f64_div (f64_add inicio fin) (f64_of_Z 2) in
                let primos_en_ventana :=
                  contar (en_ventana_f64 inicio fin) todos_primos in
                let gemelos_en_ventana :=
                  contar (fun g => en_ventana_f64 inicio fin (fst g)) gemelos in
                if 0 <? primos_en_ventana
                then
                  let proporcion :=
                    f64_div (f64_of_Z (gemelos_en_ventana * 2))
                            (f64_of_Z primos_en_ventana) in
                  (centros_ventanas ++ [centro], proporciones ++ [proporcion])
                else (centros_ventanas, proporciones))
             (range 0 (len ventanas - 1)) ([], []))
  end.

(** The points of [np.linspace(0, stop, num)] before their rounding to
    float64, for [0 <= num]: the exact rationals [k * stop / (num - 1)],
    the end point included; the only point is 0 when [num = 1]. *)
Definition np_linspace0 (stop num : Z) : list Q :=
  map (fun k => (inject_Z k * (inject_Z stop / inject_Z (num - 1)))%Q)
      (range 0 num).

(** [inicio <= x < fin] with rational edges and an integer [x]. *)
Definition en_ventana (inicio fin : Q) (x : Z) : bool :=
  Qle_bool inicio (inject_Z x) && negb (Qle_bool fin (inject_Z x)).

(** Part 4 of [visualizar_analisis_completo] over the exact points, with
    exact centres and shares: the loop of [proporcion_en_ventanas_f64]
    without any rounding. What is proved of it are bounds that no
    rounding of the points changes. *)
Definition proporcion_en_ventanas (todos_primos : list Z) (gemelos : list (Z * Z))
    (limite : Z) : list Q * list Q :=
  let ventanas := np_linspace0 limite (Z.min 100 (limite / 10)) in
  fold_left
    (fun '(centros_ventanas, proporciones) i =>
       let inicio := nth (Z.to_nat i) ventanas 0%Q in
       let fin := nth (Z.to_nat (i + 1)) ventanas 0%Q in
       let centro := ((inicio + fin) / 2)%Q in
       let primos_en_ventana := contar (en_ventana inicio fin) todos_primos in
       let gemelos_en_ventana :=
         contar (fun g => en_ventana inicio fin (fst g)) gemelos in
       if 0 <? primos_en_ventana
       then
         let proporcion :=
           (inject_Z (gemelos_en_ventana * 2) / inject_Z primos_en_ventana)%Q in
         (centros_ventanas ++ [centro], proporciones ++ [proporcion])
       else (centros_ventanas, proporciones))
    (range 0 (len ventanas - 1)) ([], []).

(** ** The consumers of the pairs *)

(** [visualizar_dispersion] of [gemelos.py], up to the plot: the x
    coordinates [primeros_primos] and the y coordinates [diferencias],
    which the code fills with the constant 2. *)
Definition visualizar_dispersion_datos (gemelos : list (Z * Z)) : list Z * list Z :=
  let primeros_primos := map fst gemelos in
  let diferencias := replicate (length gemelos) 2 in
  (primeros_primos, diferencias).

(** [primos_en_pares.extend(par)] for every pair. *)
Definition primos_en_pares (gemelos : list (Z * Z)) : list Z :=
  flat_map (fun par => [fst par; snd par]) gemelos.

(** The highlighting loop of [visualizar_patron_espiral]:
    [for primo in primos_en_pares: if primo <= limite: ... x[primo-1] ...]
    over an array [x] of [n] cells. The result lists the cells read; the
    first index out of bounds raises. *)
Fixpoint resaltar (n limite : Z) (primos : list Z) : exn + list nat :=
  match primos with
  | [] => inr []
  | primo :: resto =>
      if primo <=? limite
      then
        match norm_index (primo - 1) n with
        | None => inl (IndexError (primo - 1) n)
        | Some k =>
            match resaltar n limite resto with
            | inl e => inl e
            | inr ks => inr (k :: ks)
            end
        end
      else resaltar n limite resto
  end.

(** [visualizar_patron_espiral] of [gemelos.py], up to the plot: [x] is
    computed from [np.arange(1, limite + 1)], of [max(0, limite)] cells. *)
Definition visualizar_patron_espiral_celdas (gemelos : list (Z * Z)) (limite : Z)
  : exn + list nat :=
  resaltar (Z.max 0 limite) limite (primos_en_pares gemelos).

(** What [comparar_rendimiento] of [optimizado.py] can end with besides
    its result: an exception of the sieve, or the failure of its
    [assert]. *)
Inductive fallo_comparacion : Type :=
  | Excepcion (e : exn)
  | AssertionError.

(** [comparar_rendimiento(limite)] of [optimizado.py]; of the tuple
    [(tiempo_basico, tiempo_optimizado, cantidad)] the two clock readings
    are left out. *)
Definition comparar_rendimiento (limite : Z) : fallo_comparacion + Z :=
  let gemelos_basico := encontrar_primos_gemelos limite in
  match snd (run (encontrar_primos_gemelos_optimizado limite)) with
  | inl e => inl (Excepcion e)
  | inr gemelos_optimizado =>
      if len gemelos_basico =? len gemelos_optimizado
      then inr (len gemelos_optimizado)
      else inl AssertionError
  end.

(** The radio button [method_var] of [interfaz.py]. *)
Inductive metodo : Type := Basico | Optimizado.

(** How [PrimosGemelosGUI.generar_primos] ends: the error box for a
    non-positive limit, or the pairs stored in [self.gemelos], or an
    exception of the search. *)
Inductive generacion : Type :=
  | ErrorLimite
  | Generados (gemelos : list (Z * Z))
  | Fallo (e : exn).

(** [PrimosGemelosGUI.generar_primos] of [interfaz.py], for an integer in
    the entry field. *)
Definition gui_generar_primos (method_var : metodo) (limite : Z) : generacion :=
  if limite <=? 0 then ErrorLimite
  else
    match method_var with
    | Basico => Generados (encontrar_primos_gemelos limite)
    | Optimizado =>
        match snd (run (encontrar_primos_gemelos_optimizado limite)) with
        | inl e => Fallo e
        | inr gemelos => Generados gemelos
        end
    end.

(** A cell of a CSV row. *)
Inductive celda : Type :=
  | Texto (s : String.string)
  | Entero (z : Z).

(** [PrimosGemelosGUI.exportar_csv] of [interfaz.py]: the rows written,
    or [None] when nothing is written (no pairs, or the file dialog
    cancelled, which returns the empty name). *)
Definition exportar_csv (gemelos : list (Z * Z)) (filename : String.string)
  : option (list (list celda)) :=
  match gemelos with
  | [] => None
  | _ =>
      if String.eqb filename ""%string
      then None
      else
        Some ([Texto "Índice"%string; Texto "Primer Primo"%string;
               Texto "Segundo Primo"%string; Texto "Diferencia"%string]
              :: imap (fun i par =>
                         [Entero (Z.of_nat i + 1); Entero (fst par);
                          Entero (snd par); Entero (snd par - fst par)])
                      gemelos)
  end.

(** [c[x] += 1] on a [collections.Counter], kept as the list of its
    items in insertion order. *)
Fixpoint contador_sumar (x : Z) (c : list (Z * Z)) : list (Z * Z) :=
  match c with
  | [] => [(x, 1)]
  | (k, n) :: resto =>
      if k =? x then (k, n + 1) :: resto else (k, n) :: contador_sumar x resto
  end.

(** [Counter(xs)]: the values are counted one after the other. *)
Definition Counter (xs : list Z) : list (Z * Z) :=
  fold_left (fun c x => contador_sumar x c) xs [].

(** [max(items, key=itemgetter(1))] from a first item on: a later item
    wins only with a strictly larger count. *)
Fixpoint max_por_cuenta (mejor : Z * Z) (items : list (Z * Z)) : Z * Z :=
  match items with
  | [] => mejor
  | item :: resto =>
      if snd mejor <? snd item
      then max_por_cuenta item resto
      else max_por_cuenta mejor resto
  end.

(** [c.most_common(1)], which is [heapq.nlargest(1, c.items(), key=count)]:
    the maximum, or nothing on an empty counter. *)
Definition most_common_1 (c : list (Z * Z)) : list (Z * Z) :=
  match c with
  | [] => []
  | item :: resto => [max_por_cuenta item resto]
  end.

(** [moda] and [freq_moda] of [PrimosGemelosGUI.mostrar_estadisticas]:
    [Counter(distancias).most_common(1)[0]]; [None] is the [IndexError]
    of [[0]]. *)
Definition moda_y_frecuencia (distancias : list Z) : option (Z * Z) :=
  head (most_common_1 (Counter distancias)).

(** * Vocabulary of the statements *)

(** The pairs of adjacent elements, in order: what a loop over
    [range(len(xs) - 1)] reads as [xs[i]] and [xs[i + 1]]. *)
Fixpoint adyacentes {A : Type} (xs : list A) : list (A * A) :=
  match xs with
  | [] => []
  | x :: resto =>
      match resto with
      | [] => []
      | y :: _ => (x, y) :: adyacentes resto
      end
  end.

(** Index [m] belongs to the slice [start:stop:step] of an array of [n]
    cells. *)
Definition en_slice (start stop step n m : Z) : Prop :=
  start <= m < Z.min stop n /\ (step | m - start).

(** Cell [m] is still [True] once the candidates up to [k] are done. *)
Definition sin_marcar (k m : Z) : Prop :=
  2 <= m /\ forall d, 2 <= d <= k -> (d | m) -> m < d * d.

(** The invariant of the sieve loop once the candidates up to [k] are
    done: the array has [limite + 1] cells, and a cell is [True] exactly
    when it is still unmarked. *)
Definition criba_inv (limite k : Z) (a : list bool) : Prop :=
  len a = limite + 1 /\
  forall m, 0 <= m <= limite ->
            exists b, a !! Z.to_nat m = Some b /\ (b = true <-> sin_marcar k m).

(** [q - p == 2] for a pair [(p, q)]. *)
Definition diferencia_dos (par : Z * Z) : bool := snd par - fst par =? 2.

(** A computation is turned down before anything is allocated: it raises
    and its allocation log is empty. *)
Definition rechazado_sin_reservar {A : Type} (r : allocs * (exn + A)) : Prop :=
  fst r = [] /\ exists e, snd r = inl e.

(** The windows [calcular_densidad] sweeps: consecutive edges of
    [np.arange(0, limite, tam_ventana)]. *)
Definition ventanas_barridas (limite tam_ventana : Z) : list (Z * Z) :=
  map (fun i => (i * tam_ventana, (i + 1) * tam_ventana))
      (range 0 ((limite - 1) / tam_ventana)).

(** The windows of a partition of [[0, limite)] that leaves out only a
    last partial window. *)
Definition ventanas_completas (limite tam_ventana : Z) : list (Z * Z) :=
  map (fun i => (i * tam_ventana, (i + 1) * tam_ventana))
      (range 0 (limite / tam_ventana)).

(** [(inicio + fin) / 2] *)
Definition centro_ventana (w : Z * Z) : Q := (inject_Z (fst w + snd w) / 2)%Q.

(** Pairs whose first element [p] has [inicio <= p < fin], per unit. *)
Definition densidad_ventana (gemelos : list (Z * Z)) (tam_ventana : Z) (w : Z * Z) : Q :=
  (inject_Z (contar (fun p => (fst w <=? p) && (p <? snd w)) (map fst gemelos))
   / inject_Z tam_ventana)%Q.

(** The windows of the ratio analysis: consecutive points of
    [np.linspace(0, limite, min(100, limite // 10))]. *)
Definition ventanas_proporcion (limite : Z) : list (Q * Q) :=
  adyacentes (np_linspace0 limite (Z.min 100 (limite / 10))).

(** The primes of a window. *)
Definition primos_en (todos_primos : list Z) (w : Q * Q) : Z :=
  contar (en_ventana (fst w) (snd w)) todos_primos.

(** The twin pairs whose first element is in a window. *)
Definition gemelos_en (gemelos : list (Z * Z)) (w : Q * Q) : Z :=
  contar (fun g => en_ventana (fst w) (snd w) (fst g)) gemelos.

(** The windows that hold at least one prime. *)
Definition ventanas_con_primos (todos_primos : list Z) (limite : Z) : list (Q * Q) :=
  List.filter (fun w => 0 <? primos_en todos_primos w) (ventanas_proporcion limite).



(** The windows of the float64 points [ventanas] that hold at least one
    of the primes. *)
Definition ventanas_con_primos_f64 (todos_primos : list Z) (ventanas : list float64)
  : list (float64 * float64) :=
  List.filter (fun w => existsb (en_ventana_f64 (fst w) (snd w)) todos_primos)
              (adyacentes ventanas).

(** [gemelos] is what one of the two searches returns at [limite]. *)
Definition salida_del_motor (limite : Z) (gemelos : list (Z * Z)) : Prop :=
  gemelos = encontrar_primos_gemelos limite
  \/ snd (run (encontrar_primos_gemelos_optimizado limite)) = inr gemelos.

(** The distinct values of a list, in the order of their first
    occurrence. *)
Definition primeras (xs : list Z) : list Z :=
  fold_left (fun ks x => if existsb (Z.eqb x) ks then ks else ks ++ [x]) xs [].

(** The number of occurrences of [x]. *)
Definition apariciones (x : Z) (xs : list Z) : Z := contar (Z.eqb x) xs.

(** * Properties *)

(** ** Loops that append *)

Section Loops.
Context {A B C : Type}.

Lemma fold_left_append (f : A -> bool) (g : A -> B) (xs : list A) (acc : list B) :
  fold_left (fun acc x => if f x then acc ++ [g x] else acc) xs acc
  = acc ++ map g (List.filter f xs).
Proof.
  revert acc. induction xs as [|x xs IH]; intros acc; simpl.
  - by rewrite app_nil_r.
  - rewrite IH. destruct (f x); simpl; [|done].
    by rewrite <- app_assoc.
Qed.

Lemma fold_left_append_all (g : A -> B) (xs : list A) (acc : list B) :
  fold_left (fun acc x => acc ++ [g x]) xs acc = acc ++ map g xs.
Proof.
  revert acc. induction xs as [|x xs IH]; intros acc; simpl.
  - by rewrite app_nil_r.
  - rewrite IH. by rewrite <- app_assoc.
Qed.

Lemma fold_left_append2 (f : A -> bool) (g : A -> B) (h : A -> C)
    (xs : list A) (acc1 : list B) (acc2 : list C) :
  fold_left (fun '(a1, a2) x => if f x then (a1 ++ [g x], a2 ++ [h x]) else (a1, a2))
            xs (acc1, acc2)
  = (acc1 ++ map g (List.filter f xs), acc2 ++ map h (List.filter f xs)).
Proof.
  revert acc1 acc2. induction xs as [|x xs IH]; intros acc1 acc2; simpl.
  - by rewrite !app_nil_r.
  - destruct (f x); rewrite IH; simpl; [|done].
    by rewrite <- !app_assoc.
Qed.

Lemma fold_left_append2_all (g : A -> B) (h : A -> C)
    (xs : list A) (acc1 : list B) (acc2 : list C) :
  fold_left (fun '(a1, a2) x => (a1 ++ [g x], a2 ++ [h x])) xs (acc1, acc2)
  = (acc1 ++ map g xs, acc2 ++ map h xs).
Proof.
  revert acc1 acc2. induction xs as [|x xs IH]; intros acc1 acc2; simpl.
  - by rewrite !app_nil_r.
  - rewrite IH. by rewrite <- !app_assoc.
Qed.
End Loops.

(** ** Ranges *)

Lemma In_range a b x : In x (range a b) <-> a <= x < b.
Proof.
  unfold range. rewrite <- list_elem_of_In, elem_of_seqZ. lia.
Qed.

Lemma range_nil a b : b <= a -> range a b = [].
Proof. intros. unfold range. apply seqZ_nil. lia. Qed.

Lemma range_cons a b : a < b -> range a b = a :: range (a + 1) b.
Proof.
  intros. unfold range. rewrite seqZ_cons by lia.
  f_equal. f_equal; lia.
Qed.

Lemma range_shift a b : range (a + 1) (b + 1) = map (Z.add 1) (range a b).
Proof.
  unfold range. change (map (Z.add 1) (seqZ a (b - a))) with (Z.add 1 <$> seqZ a (b - a)).
  rewrite fmap_add_seqZ. f_equal; lia.
Qed.

Lemma length_range a b : length (range a b) = Z.to_nat (b - a).
Proof. apply length_seqZ. Qed.

(** ** Adjacent elements *)

Lemma adyacentes_range {A : Type} (xs : list A) (d : A) :
  map (fun i => (nth (Z.to_nat i) xs d, nth (Z.to_nat (i + 1)) xs d))
      (range 0 (len xs - 1))
  = adyacentes xs.
Proof.
  induction xs as [|x [|y t] IH]; [done | done |].
  change (adyacentes (x :: y :: t)) with ((x, y) :: adyacentes (y :: t)).
  rewrite <- IH. unfold len.
  replace (Z.of_nat (length (x :: y :: t)) - 1)
    with ((Z.of_nat (length (y :: t)) - 1) + 1) by (simpl length; lia).
  rewrite range_cons by (simpl length; lia).
  rewrite range_shift, map_cons, map_map. f_equal.
  apply map_ext_in. intros i Hi%In_range.
  replace (Z.to_nat (1 + i)) with (S (Z.to_nat i)) by lia.
  replace (Z.to_nat (1 + i + 1)) with (S (Z.to_nat (i + 1))) by lia.
  reflexivity.
Qed.

Lemma length_adyacentes {A : Type} (xs : list A) :
  length (adyacentes xs) = (length xs - 1)%nat.
Proof.
  induction xs as [|x [|y t] IH]; [done | done |].
  change (adyacentes (x :: y :: t)) with ((x, y) :: adyacentes (y :: t)).
  simpl length in *. lia.
Qed.

(** ** The naive primality test *)

Lemma es_primo_loop_false n ds :
  es_primo_loop n ds = false <-> exists d, In d ds /\ n mod d = 0.
Proof.
  induction ds as [|i ds IH]; simpl.
  - split; [done | intros (d & [] & _)].
  - destruct (Z.eqb_spec (n mod i) 0) as [Hz|Hz].
    + split; [|done]. intros _. exists i. auto.
    + rewrite IH. split.
      * intros (d & Hd & Hm). eauto.
      * intros (d & [->|Hd] & Hm); [done | eauto].
Qed.

Lemma es_primo_loop_true n ds :
  es_primo_loop n ds = true <-> forall d, In d ds -> n mod d <> 0.
Proof.
  rewrite <- not_false_iff_true, es_primo_loop_false.
  split.
  - intros H d Hd Hm. apply H. eauto.
  - intros H (d & Hd & Hm). by apply (H d).
Qed.

Lemma es_primo_valor_true n :
  es_primo_valor n = true <->
  2 <= n /\ forall d, 2 <= d <= Z.sqrt n -> ~ (d | n).
Proof.
  unfold es_primo_valor. destruct (Z.ltb_spec n 2) as [Hlt|Hge].
  - split; [done | lia].
  - rewrite es_primo_loop_true. split.
    + intros H. split; [done|]. intros d Hd Hdiv.
      apply (H d); [apply In_range; lia|].
      apply Z.mod_divide; [lia | done].
    + intros [_ H] d Hd%In_range Hm. apply (H d); [lia|].
      apply Z.mod_divide; [lia | done].
Qed.

Lemma es_primo_valor_false n :
  2 <= n ->
  es_primo_valor n = false <-> exists d, 2 <= d <= Z.sqrt n /\ (d | n).
Proof.
  intros Hge. unfold es_primo_valor.
  destruct (Z.ltb_spec n 2) as [Hlt|_]; [lia|].
  rewrite es_primo_loop_false. split.
  - intros (d & Hd%In_range & Hm). exists d. split; [lia|].
    apply Z.mod_divide; [lia | done].
  - intros (d & Hd & Hdiv). exists d. split; [apply In_range; lia|].
    apply Z.mod_divide; [lia | done].
Qed.

(** A composite number has a divisor no larger than its square root. *)
Lemma divisor_pequeno n d :
  1 < d < n -> (d | n) -> exists e, 2 <= e <= Z.sqrt n /\ (e | n).
Proof.
  intros Hd [q Hq].
  assert (1 < q) by nia.
  destruct (Z.le_gt_cases d q) as [Hle|Hgt].
  - exists d. split; [|by exists q].
    split; [lia|]. apply Z.sqrt_le_square; nia.
  - exists q. split; [|exists d; lia].
    split; [lia|]. apply Z.sqrt_le_square; nia.
Qed.

Lemma sqrt_lt_self n : 2 <= n -> Z.sqrt n < n.
Proof. intros. apply Z.sqrt_lt_lin. lia. Qed.

Lemma es_primo_valor_prime n : es_primo_valor n = true <-> Z.prime n.
Proof.
  rewrite es_primo_valor_true. unfold Z.prime. split.
  - intros [Hge H]. split; [lia|]. intros d Hd Hdiv.
    destruct (divisor_pequeno n d) as (e & He & Hediv); [done | done |].
    by destruct (H e).
  - intros [Hgt H]. split; [lia|]. intros d Hd Hdiv.
    pose proof (sqrt_lt_self n ltac:(lia)).
    apply (H d); [lia | done].
Qed.

Lemma es_primo_sin_error n : n < 2 ^ 64 -> es_primo n = inr (es_primo_valor n).
Proof.
  intros Hn. unfold es_primo, es_primo_valor, int_np_sqrt.
  destruct (n <? 2); [done|].
  by destruct (Z.ltb_spec n (2 ^ 64)); [|lia].
Qed.

Lemma es_primo_TypeError n : 2 ^ 64 <= n -> es_primo n = inl TypeError.
Proof.
  intros Hn. unfold es_primo, int_np_sqrt.
  destruct (Z.ltb_spec n 2) as [|_]; [lia|].
  by destruct (Z.ltb_spec n (2 ^ 64)); [lia|].
Qed.

(** The scan gives the same answer for every bound from the integer
    square root up to [n - 1]: a float64 root rounded upwards changes
    nothing. *)
Lemma es_primo_loop_raiz n raiz :
  2 <= n -> Z.sqrt n <= raiz < n ->
  es_primo_loop n (range 2 (raiz + 1)) = es_primo_valor n.
Proof.
  intros Hn Hraiz.
  destruct (es_primo_valor n) eqn:Hv.
  - apply es_primo_valor_prime in Hv as [_ Hp].
    apply es_primo_loop_true. intros d Hd%In_range Hm.
    apply (Hp d); [lia|]. apply Z.mod_divide; [lia | done].
  - apply es_primo_valor_false in Hv as (d & Hd & Hdiv); [|done].
    apply es_primo_loop_false. exists d. split; [apply In_range; lia|].
    apply Z.mod_divide; [lia | done].
Qed.

Lemma generar_primos_filter limite :
  generar_primos limite = List.filter es_primo_valor (range 2 (limite + 1)).
Proof.
  unfold generar_primos.
  rewrite (fold_left_append es_primo_valor (fun n => n)). simpl.
  apply map_id.
Qed.

(** ** Arrays *)

Lemma norm_index_in i n : 0 <= i < n -> norm_index i n = Some (Z.to_nat i).
Proof.
  intros. unfold norm_index.
  destruct (Z.leb_spec 0 i); [|lia]. destruct (Z.ltb_spec i n); [done | lia].
Qed.

Section Slices.
Variable v : bool.

Lemma length_escribir js a : length (escribir v js a) = length a.
Proof.
  revert a. induction js as [|j js IH]; intros a; [done|].
  simpl. rewrite IH. apply length_insert.
Qed.

Lemma lookup_escribir_fuera js a k :
  (forall j, In j js -> Z.to_nat j <> k) -> escribir v js a !! k = a !! k.
Proof.
  revert a. induction js as [|j js IH]; intros a Hk; [done|].
  simpl. rewrite IH by (intros; apply Hk; by right).
  apply list_lookup_insert_ne. apply Hk. by left.
Qed.

Lemma lookup_escribir_dentro js a k :
  (exists j, In j js /\ Z.to_nat j = k) -> (k < length a)%nat ->
  escribir v js a !! k = Some v.
Proof.
  revert a. induction js as [|j js IH]; intros a (j' & Hin & Hj') Hlt.
  - destruct Hin.
  - simpl.
    destruct (decide (k ∈ Z.to_nat <$> js)) as [Hex|Hno].
    + apply IH; [|by rewrite length_insert].
      apply list_elem_of_fmap in Hex as (j'' & -> & Hj'').
      exists j''. by rewrite <- list_elem_of_In.
    + rewrite lookup_escribir_fuera.
      * destruct Hin as [->|Hin]; [subst k; by apply list_lookup_insert_eq|].
        destruct Hno. apply list_elem_of_fmap. exists j'.
        by rewrite list_elem_of_In.
      * intros j'' Hj'' <-. apply Hno, list_elem_of_fmap_2.
        by rewrite list_elem_of_In.
Qed.
End Slices.

Lemma In_slice_indices start stop step n j :
  0 < step ->
  In j (slice_indices start stop step n)
  <-> start <= j < Z.min stop n /\ (step | j - start).
Proof.
  intros Hstep. unfold slice_indices. rewrite in_map_iff.
  set (D := Z.min stop n - start).
  assert (Hk : forall k : nat,
             In k (seq 0 (Z.to_nat ((D + step - 1) / step)))
             <-> Z.of_nat k * step < D).
  { intros k. rewrite in_seq. split.
    - intros [_ Hlt].
      assert (Z.of_nat k + 1 <= (D + step - 1) / step) as Hle by lia.
      pose proof (Z.mul_div_le (D + step - 1) step Hstep). nia.
    - intros Hlt. split; [lia|].
      assert (Z.of_nat k + 1 <= (D + step - 1) / step); [|lia].
      apply Z.div_le_lower_bound; [done | nia]. }
  replace (Z.min stop n - start + step - 1) with (D + step - 1) by (unfold D; lia).
  split.
  - intros (k & <- & Hin%Hk). split; [unfold D in *; nia|].
    exists (Z.of_nat k). lia.
  - intros [Hj [q Hq]].
    assert (0 <= q) by nia.
    exists (Z.to_nat q). split; [lia|]. apply Hk. unfold D. nia.
Qed.

Lemma length_setslice a start stop step v :
  length (setslice a start stop step v) = length a.
Proof. apply length_escribir. Qed.

Lemma en_slice_dec start stop step n m :
  en_slice start stop step n m \/ ~ en_slice start stop step n m.
Proof.
  unfold en_slice.
  destruct (Z.BoolSpec_divide step (m - start)); [|right; tauto].
  destruct (Z_le_dec start m); [|right; lia].
  destruct (Z_lt_dec m (Z.min stop n)); [left; done | right; lia].
Qed.

Lemma lookup_setslice_dentro a start stop step v m :
  0 < step -> 0 <= m < len a ->
  en_slice start stop step (len a) m ->
  setslice a start stop step v !! Z.to_nat m = Some v.
Proof.
  intros Hstep Hm Hsl. unfold setslice.
  apply lookup_escribir_dentro; [|unfold len in Hm; lia].
  exists m. by rewrite In_slice_indices.
Qed.

Lemma lookup_setslice_fuera a start stop step v m :
  0 < step -> 0 <= start -> 0 <= m ->
  ~ en_slice start stop step (len a) m ->
  setslice a start stop step v !! Z.to_nat m = a !! Z.to_nat m.
Proof.
  intros Hstep Hstart Hm Hsl. unfold setslice.
  apply lookup_escribir_fuera. intros j Hj Heq.
  apply In_slice_indices in Hj; [|done].
  apply Hsl. replace m with j by (unfold en_slice in *; lia). done.
Qed.

(** ** The sieve *)

Section ForEach.
Context {S : Type}.
Variable I : Z -> S -> Prop.
Variable body : Z -> S -> M S.
Variable log : allocs.

(** A loop over [range(lo, hi)] whose body keeps an invariant indexed by
    the next candidate, and neither raises nor allocates. *)
Lemma for_each_range_inv lo hi s :
  lo <= hi -> I lo s ->
  (forall i s, lo <= i < hi -> I i s ->
               exists s', body i s log = (log, inr s') /\ I (i + 1) s') ->
  exists s', for_each (range lo hi) body s log = (log, inr s') /\ I hi s'.
Proof.
  intros Hle. remember (Z.to_nat (hi - lo)) as n eqn:Hn.
  revert lo s Hle Hn. induction n as [|n IH]; intros lo s Hle Hn Hs Hbody.
  - rewrite range_nil by lia. exists s. split; [done|].
    by replace hi with lo by lia.
  - rewrite range_cons by lia. simpl. unfold bind.
    destruct (Hbody lo s) as (s1 & -> & Hs1); [lia | done |].
    apply IH; [lia | lia | done |].
    intros i s2 Hi. apply Hbody. lia.
Qed.
End ForEach.

Lemma criba_inv_inicial limite :
  1 <= limite ->
  criba_inv limite 1
    (<[Z.to_nat 1:=false]> (<[Z.to_nat 0:=false]> (replicate (Z.to_nat (limite + 1)) true))).
Proof.
  intros Hlim. split.
  - unfold len. rewrite !length_insert, length_replicate. lia.
  - intros m Hm.
    destruct (decide (m = 1)) as [->|H1].
    { exists false. split.
      - apply list_lookup_insert_eq. rewrite length_insert, length_replicate. lia.
      - unfold sin_marcar. split; [done | lia]. }
    rewrite list_lookup_insert_ne by lia.
    destruct (decide (m = 0)) as [->|H0].
    { exists false. split.
      - apply list_lookup_insert_eq. rewrite length_replicate. lia.
      - unfold sin_marcar. split; [done | lia]. }
    rewrite list_lookup_insert_ne by lia.
    exists true. split.
    + apply lookup_replicate_2. lia.
    + unfold sin_marcar. split; [|done]. intros _. split; [lia|]. intros; lia.
Qed.

Lemma criba_paso limite log i a :
  2 <= i <= Z.sqrt limite ->
  criba_inv limite (i - 1) a ->
  exists a',
    (let* marcado := getitem a i in
     if marcado
     then ret (setslice a (i * i) (limite + 1) i false)
     else ret a) log = (log, inr a')
    /\ criba_inv limite (i + 1 - 1) a'.
Proof.
  intros Hi [Hlen Hinv].
  assert (i * i <= limite) as Hii.
  { destruct (Z.lt_ge_cases limite 0) as [Hneg|Hpos].
    - rewrite Z.sqrt_neg in Hi by done. lia.
    - pose proof (Z.sqrt_spec limite Hpos) as Hs. cbv zeta in Hs. nia. }
  assert (i <= limite) as Hil by nia.
  destruct (Hinv i) as (b & Hb & Hbspec); [lia|].
  unfold bind, getitem. rewrite norm_index_in by lia. rewrite Hb.
  replace (i + 1 - 1) with i by lia. simpl.
  destruct b.
  - (* the candidate is unmarked: its multiples from [i * i] are struck *)
    eexists. split; [reflexivity|]. split.
    { unfold len in *. by rewrite length_setslice. }
    intros m Hm.
    destruct (en_slice_dec (i * i) (limite + 1) i (len a) m) as [Hsl|Hsl].
    + exists false. split; [apply lookup_setslice_dentro; [lia | lia | done]|].
      split; [done|]. intros [_ Hd]. exfalso.
      destruct Hsl as [Hr [q Hq]].
      assert (m < i * i); [|lia].
      apply Hd; [lia|]. exists (q + i). lia.
    + rewrite lookup_setslice_fuera by (done || lia).
      destruct (Hinv m Hm) as (b' & Hb' & Hb'spec).
      exists b'. split; [done|]. rewrite Hb'spec.
      unfold sin_marcar. split.
      * intros [H2 Hd]. split; [done|]. intros d Hdr Hdiv.
        destruct (decide (d = i)) as [->|Hne]; [|apply Hd; [lia | done]].
        destruct (Z.lt_ge_cases m (i * i)) as [|Hge]; [done|].
        destruct Hsl. split; [lia|].
        destruct Hdiv as [q Hq]. exists (q - i). lia.
      * intros [H2 Hd]. split; [done|]. intros d Hdr. apply Hd. lia.
  - (* the candidate is marked: nothing is written *)
    exists a. split; [done|]. split; [done|].
    intros m Hm. destruct (Hinv m Hm) as (b' & Hb' & Hb'spec).
    exists b'. split; [done|]. rewrite Hb'spec.
    unfold sin_marcar. split.
    + intros [H2 Hd]. split; [done|]. intros d Hdr Hdiv.
      destruct (decide (d = i)) as [->|Hne]; [|apply Hd; [lia | done]].
      destruct (Z.lt_ge_cases m (i * i)) as [|Hge]; [done|]. exfalso.
      assert (false = true); [|done]. apply Hbspec.
      split; [lia|]. intros e He Hei.
      assert (m < e * e); [|nia].
      apply Hd; [lia|]. by apply Z.divide_trans with i.
    + intros [H2 Hd]. split; [done|]. intros d Hdr. apply Hd. lia.
Qed.

Lemma sin_marcar_es_primo limite m :
  0 <= m <= limite ->
  sin_marcar (Z.sqrt limite) m <-> es_primo_valor m = true.
Proof.
  intros Hm. rewrite es_primo_valor_true. unfold sin_marcar. split.
  - intros [H2 Hd]. split; [done|]. intros d Hdr Hdiv.
    assert (Z.sqrt m <= Z.sqrt limite) by (apply Z.sqrt_le_mono; lia).
    assert (m < d * d) by (apply Hd; [lia | done]).
    pose proof (Z.sqrt_spec m ltac:(lia)) as Hs. cbv zeta in Hs. nia.
  - intros [H2 Hd]. split; [done|]. intros d Hdr Hdiv.
    destruct (Z.lt_ge_cases m (d * d)) as [|Hge]; [done|].
    destruct (Hd d); [|done]. split; [lia|].
    apply Z.sqrt_le_square; lia.
Qed.

Lemma np_where_criba limite a :
  1 <= limite ->
  criba_inv limite (Z.sqrt limite) a ->
  np_where a = generar_primos limite.
Proof.
  intros Hlim [Hlen Hinv]. rewrite generar_primos_filter.
  unfold np_where. rewrite Hlen.
  rewrite (range_cons 0) by lia. rewrite (range_cons (0 + 1)) by lia.
  change (0 + 1 + 1) with 2.
  assert (Hcell : forall m, 0 <= m <= limite ->
                            default false (a !! Z.to_nat m) = es_primo_valor m).
  { intros m Hm. destruct (Hinv m Hm) as (b & -> & Hb). simpl.
    rewrite (sin_marcar_es_primo limite m Hm) in Hb.
    destruct b, (es_primo_valor m); try done.
    - symmetry. by apply Hb.
    - by apply Hb. }
  simpl List.filter.
  rewrite (Hcell 0), (Hcell (0 + 1)) by lia.
  change (es_primo_valor 0) with false. change (es_primo_valor (0 + 1)) with false.
  apply filter_ext_in. intros m Hm%In_range. apply Hcell. lia.
Qed.

Lemma criba_eratostenes_correcta limite log :
  1 <= limite ->
  criba_eratostenes limite log = (log ++ [limite + 1], inr (generar_primos limite)).
Proof.
  intros Hlim. unfold criba_eratostenes, bind at 1, np_ones.
  destruct (Z.ltb_spec (limite + 1) 0) as [|_]; [lia|].
  assert (Hrep : len (replicate (Z.to_nat (limite + 1)) true) = limite + 1).
  { unfold len. rewrite length_replicate. lia. }
  unfold bind at 1, setitem at 1. rewrite Hrep, norm_index_in by lia.
  unfold ret at 1.
  unfold bind at 1, setitem at 1.
  replace (len (<[Z.to_nat 0:=false]> (replicate (Z.to_nat (limite + 1)) true)))
    with (limite + 1) by (unfold len in *; by rewrite length_insert).
  rewrite norm_index_in by lia. unfold ret at 1.
  assert (1 <= Z.sqrt limite) as Hsq.
  { change 1 with (Z.sqrt 1). apply Z.sqrt_le_mono. lia. }
  destruct (for_each_range_inv
              (fun i a => criba_inv limite (i - 1) a)
              (fun i es_primo =>
                 let* marcado := getitem es_primo i in
                 if marcado
                 then ret (setslice es_primo (i * i) (limite + 1) i false)
                 else ret es_primo)
              (log ++ [limite + 1]) 2 (Z.sqrt limite + 1)
              (<[Z.to_nat 1:=false]>
                 (<[Z.to_nat 0:=false]> (replicate (Z.to_nat (limite + 1)) true))))
    as (a & Hrun & Ha).
  - lia.
  - by apply criba_inv_inicial.
  - intros i s Hi Hs. apply criba_paso; [lia | done].
  - unfold bind at 1. rewrite Hrun. unfold ret. f_equal. f_equal.
    apply np_where_criba; [done|].
    by replace (Z.sqrt limite + 1 - 1) with (Z.sqrt limite) in Ha by lia.
Qed.

(** ** Strictly increasing sequences *)

Lemma StronglySorted_sublist {A : Type} (R : relation A) (l1 l2 : list A) :
  l1 `sublist_of` l2 -> StronglySorted R l2 -> StronglySorted R l1.
Proof.
  induction 1 as [|x l1 l2 Hsub IH|x l1 l2 Hsub IH]; intros Hs.
  - constructor.
  - apply StronglySorted_inv in Hs as [Hs Hx]. constructor; [by apply IH|].
    rewrite Forall_forall in *. intros y Hy. apply Hx.
    by apply (elem_of_sublist l1 l2).
  - apply StronglySorted_inv in Hs as [Hs _]. by apply IH.
Qed.

Lemma StronglySorted_lt_NoDup (l : list Z) : StronglySorted Z.lt l -> NoDup l.
Proof.
  induction 1 as [|x l Hs IH Hx]; constructor; [|done].
  intros Hin. rewrite Forall_forall in Hx. specialize (Hx x Hin). lia.
Qed.

Lemma List_filter_sublist {A : Type} (f : A -> bool) (l : list A) :
  List.filter f l `sublist_of` l.
Proof.
  induction l as [|x l IH]; simpl; [constructor|].
  destruct (f x); by constructor.
Qed.

Lemma StronglySorted_range a b : StronglySorted Z.lt (range a b).
Proof.
  remember (Z.to_nat (b - a)) as n eqn:Hn. revert a Hn.
  induction n as [|n IH]; intros a Hn.
  - rewrite range_nil by lia. constructor.
  - rewrite range_cons by lia. constructor; [apply IH; lia|].
    apply Forall_forall. intros x Hx%list_elem_of_In%In_range. lia.
Qed.

Lemma generar_primos_creciente limite :
  StronglySorted Z.lt (generar_primos limite).
Proof.
  rewrite generar_primos_filter.
  eapply StronglySorted_sublist; [apply List_filter_sublist|].
  apply StronglySorted_range.
Qed.

Lemma In_generar_primos limite p :
  In p (generar_primos limite) <-> 2 <= p <= limite /\ Z.prime p.
Proof.
  rewrite generar_primos_filter, filter_In, In_range, es_primo_valor_prime.
  intuition lia.
Qed.

(** ** The scan for twin pairs *)

Lemma pares_gemelos_adyacentes primos :
  pares_gemelos primos = List.filter diferencia_dos (adyacentes primos).
Proof.
  unfold pares_gemelos.
  rewrite (fold_left_append
             (fun i => nth (Z.to_nat (i + 1)) primos 0 - nth (Z.to_nat i) primos 0 =? 2)
             (fun i => (nth (Z.to_nat i) primos 0, nth (Z.to_nat (i + 1)) primos 0))).
  simpl app. rewrite <- (adyacentes_range primos 0).
  by rewrite filter_map_swap.
Qed.

Lemma fst_adyacentes_sublist {A : Type} (f : A * A -> bool) (xs : list A) :
  map fst (List.filter f (adyacentes xs)) `sublist_of` xs.
Proof.
  induction xs as [|x [|y t] IH]; [done | by constructor |].
  change (adyacentes (x :: y :: t)) with ((x, y) :: adyacentes (y :: t)).
  simpl List.filter. destruct (f (x, y)); simpl map; by constructor.
Qed.

Lemma In_adyacentes {A : Type} (xs : list A) (d : A) (p q : A) :
  In (p, q) (adyacentes xs)
  <-> exists i, 0 <= i < len xs - 1
                /\ p = nth (Z.to_nat i) xs d /\ q = nth (Z.to_nat (i + 1)) xs d.
Proof.
  rewrite <- (adyacentes_range xs d), in_map_iff.
  setoid_rewrite In_range. split.
  - intros (i & [= <- <-] & Hi). eauto.
  - intros (i & Hi & -> & ->). eauto.
Qed.

(** ** Distances between consecutive twin pairs *)

Lemma distancias_adyacentes gemelos :
  distancias (analizar_distancias_entre_gemelos gemelos)
  = map (fun par => fst (snd par) - fst (fst par)) (adyacentes gemelos).
Proof.
  unfold analizar_distancias_entre_gemelos.
  destruct (Z.ltb_spec (len gemelos) 2) as [Hlt|Hge].
  - destruct gemelos as [|g1 [|g2 t]]; [done | done |].
    unfold len in Hlt. simpl length in Hlt. lia.
  - simpl distancias.
    rewrite (fold_left_append_all
               (fun i => fst (nth (Z.to_nat (i + 1)) gemelos (0, 0))
                         - fst (nth (Z.to_nat i) gemelos (0, 0)))).
    simpl app. rewrite <- (adyacentes_range gemelos (0, 0)).
    by rewrite map_map.
Qed.

Lemma adyacentes_map {A B : Type} (f : A -> B) (xs : list A) :
  adyacentes (map f xs) = map (fun par => (f (fst par), f (snd par))) (adyacentes xs).
Proof.
  induction xs as [|x [|y t] IH]; [done | done |].
  simpl in *. by rewrite IH.
Qed.

Lemma adyacentes_creciente (xs : list Z) :
  StronglySorted Z.lt xs ->
  Forall (fun par => fst par < snd par /\ In (fst par) xs /\ In (snd par) xs)
         (adyacentes xs).
Proof.
  induction xs as [|x [|y t] IH]; intros Hs; [constructor | constructor |].
  change (adyacentes (x :: y :: t)) with ((x, y) :: adyacentes (y :: t)).
  apply StronglySorted_inv in Hs as [Hs Hx].
  constructor.
  - simpl. split; [|auto]. by apply Forall_inv in Hx.
  - eapply Forall_impl; [by apply IH|].
    intros [a b] (Hab & Ha & Hb). simpl in *. auto.
Qed.

Lemma primo_par p : Z.prime p -> Z.even p = true -> p = 2.
Proof.
  intros [Hgt Hp] Hev. apply Z.even_spec in Hev as [k Hk].
  destruct (decide (p = 2)) as [|Hne]; [done|].
  destruct (Hp 2); [lia|]. exists k. lia.
Qed.

Lemma cuatro_no_primo : ~ Z.prime 4.
Proof. intros [_ H]. apply (H 2); [lia|]. by exists 2. Qed.

(** The first prime of a twin pair is odd. *)
Lemma primer_gemelo_impar limite p q :
  In (p, q) (encontrar_primos_gemelos limite) -> Z.odd p = true.
Proof.
  unfold encontrar_primos_gemelos. rewrite pares_gemelos_adyacentes, filter_In.
  unfold diferencia_dos. simpl. rewrite Z.eqb_eq. intros [Hin Hd].
  pose proof (adyacentes_creciente _ (generar_primos_creciente limite)) as Hall.
  rewrite Forall_forall in Hall.
  apply list_elem_of_In, Hall in Hin as (_ & Hp & Hq). simpl in *.
  apply In_generar_primos in Hp as [_ Hp]. apply In_generar_primos in Hq as [_ Hq].
  rewrite <- Z.negb_even. destruct (Z.even p) eqn:Hev; [|done].
  apply primo_par in Hev; [|done]. subst p.
  replace q with 4 in Hq by lia. by destruct cuatro_no_primo.
Qed.

Lemma primeros_gemelos_creciente limite :
  StronglySorted Z.lt (map fst (encontrar_primos_gemelos limite)).
Proof.
  unfold encontrar_primos_gemelos. rewrite pares_gemelos_adyacentes.
  eapply StronglySorted_sublist; [apply fst_adyacentes_sublist|].
  apply generar_primos_creciente.
Qed.

Lemma distancias_gemelos limite :
  Forall (fun d => Z.even d = true /\ 2 <= d)
         (distancias (analizar_distancias_entre_gemelos
                        (encontrar_primos_gemelos limite))).
Proof.
  rewrite distancias_adyacentes.
  pose proof (adyacentes_creciente _ (primeros_gemelos_creciente limite)) as Hall.
  rewrite adyacentes_map in Hall.
  rewrite Forall_forall in Hall. apply Forall_forall.
  intros d Hd%list_elem_of_In%in_map_iff. destruct Hd as ([g1 g2] & <- & Hin).
  destruct (Hall (fst g1, fst g2)) as (Hlt & H1 & H2).
  { apply list_elem_of_In, in_map_iff. by exists (g1, g2). }
  simpl in *.
  apply in_map_iff in H1 as ([p1 q1] & Hp1 & Hin1).
  apply in_map_iff in H2 as ([p2 q2] & Hp2 & Hin2).
  apply primer_gemelo_impar in Hin1, Hin2. simpl in *. subst p1 p2.
  assert (Z.even (fst g2 - fst g1) = true) as Hev.
  { rewrite Z.even_sub, <- !Z.negb_odd, Hin1, Hin2. done. }
  split; [done|].
  apply Z.even_spec in Hev as [k Hk]. lia.
Qed.

(** ** The statistics of the distances *)

Lemma Q2R_inject_Z z : Q2R (inject_Z z) = IZR z.
Proof. unfold Q2R, inject_Z. simpl. lra. Qed.

Lemma inject_Z_len_pos {A : Type} (xs : list A) :
  xs <> [] -> (0 < inject_Z (len xs))%Q.
Proof.
  intros Hne. change 0%Q with (inject_Z 0). rewrite <- Zlt_Qlt.
  destruct xs; [done|]. unfold len. simpl length. lia.
Qed.

Lemma np_mean_suma xs :
  xs <> [] -> (np_mean xs * inject_Z (len xs) == inject_Z (suma xs))%Q.
Proof.
  intros Hne. unfold np_mean. field.
  intros H0. pose proof (inject_Z_len_pos xs Hne) as Hpos.
  rewrite H0 in Hpos. by apply Qlt_irrefl in Hpos.
Qed.

Lemma desvios_cuadrados_nonneg xs : (0 <= desvios_cuadrados xs)%Q.
Proof.
  unfold desvios_cuadrados. generalize (np_mean xs) as m. intros m.
  induction xs as [|x xs IH]; simpl; [apply Qle_refl|].
  replace 0%Q with (0 + 0)%Q by done.
  apply Qplus_le_compat; [apply Qsqr_nonneg | done].
Qed.

Lemma np_var_nonneg xs : xs <> [] -> (0 <= np_var xs)%Q.
Proof.
  intros Hne. unfold np_var. apply Qle_shift_div_l.
  - by apply inject_Z_len_pos.
  - rewrite Qmult_0_l. apply desvios_cuadrados_nonneg.
Qed.

(** The square of [np_std], times the number of values, is the sum of the
    squared deviations: the divisor is [N]. *)
Lemma np_std_cuadrado xs :
  xs <> [] ->
  (np_std xs * np_std xs * IZR (len xs) = Q2R (desvios_cuadrados xs))%R.
Proof.
  intros Hne. unfold np_std. rewrite sqrt_sqrt.
  - unfold np_var. pose proof (inject_Z_len_pos xs Hne) as Hpos.
    rewrite Q2R_div by (intros H0; rewrite H0 in Hpos; by apply Qlt_irrefl in Hpos).
    rewrite Q2R_inject_Z.
    assert (IZR (len xs) <> 0)%R.
    { apply not_0_IZR. destruct xs; [done|]. unfold len. simpl length. lia. }
    by field.
  - replace 0%R with (Q2R 0) by apply RMicromega.Q2R_0.
    apply Qle_Rle. by apply np_var_nonneg.
Qed.

Lemma np_std_nonneg xs : (0 <= np_std xs)%R.
Proof. unfold np_std. apply sqrt_pos. Qed.

(** The squared deviations from any centre [m], expanded. *)
Lemma desvios_desarrollo xs (m : Q) :
  (fold_right Qplus 0 (map (fun x => (inject_Z x - m) ^ 2) xs)
   == inject_Z (fold_right Z.add 0%Z (map (fun x => x * x)%Z xs))
      - 2 * m * inject_Z (fold_right Z.add 0%Z xs)
      + inject_Z (len xs) * m ^ 2)%Q.
Proof.
  induction xs as [|x xs IH].
  - simpl. unfold len. simpl. ring.
  - simpl fold_right. simpl map. simpl fold_right. rewrite IH.
    unfold len. simpl length. rewrite Nat2Z.inj_succ, <- Z.add_1_r.
    rewrite !inject_Z_plus, inject_Z_mult. simpl. ring.
Qed.

(** The population variance in integers: [N^2 * var = N * sum of the
    squares - square of the sum]. *)
Lemma np_std_enteros xs :
  xs <> [] ->
  (np_std xs * np_std xs * IZR (len xs) * IZR (len xs)
   = IZR (len xs * fold_right Z.add 0 (map (fun x => x * x) xs)
          - fold_right Z.add 0 xs ^ 2)%Z)%R.
Proof.
  intros Hne. rewrite np_std_cuadrado by done.
  rewrite <- Q2R_inject_Z, <- Q2R_mult, <- Q2R_inject_Z.
  apply Qeq_eqR. unfold desvios_cuadrados. rewrite desvios_desarrollo.
  unfold np_mean, suma.
  rewrite Z.pow_2_r. unfold Z.sub.
  rewrite inject_Z_plus, inject_Z_opp, !inject_Z_mult.
  pose proof (inject_Z_len_pos xs Hne) as Hpos.
  field. intros H0. rewrite H0 in Hpos. by apply Qlt_irrefl in Hpos.
Qed.

(** [np_median] reads the middle of a sorted rearrangement of the values. *)
Lemma np_median_ordenado xs :
  exists ordenados,
    Sorted Z.le ordenados /\ ordenados ≡ₚ xs
    /\ np_median xs
       = if Nat.even (length xs)
         then (inject_Z (nth (length xs / 2 - 1) ordenados 0%Z
                         + nth (length xs / 2) ordenados 0%Z) / 2)%Q
         else inject_Z (nth (length xs / 2) ordenados 0).
Proof.
  exists (merge_sort Z.le xs). split; [|split].
  - apply Sorted_merge_sort. apply _.
  - apply merge_sort_Permutation.
  - reflexivity.
Qed.

(** ** Windows *)

Lemma adyacentes_range_id a b :
  adyacentes (range a b) = map (fun i => (i, i + 1)) (range a (b - 1)).
Proof.
  remember (Z.to_nat (b - a)) as n eqn:Hn. revert a Hn.
  induction n as [|n IH]; intros a Hn.
  - by rewrite !range_nil by lia.
  - rewrite (range_cons a b) by lia.
    destruct (decide (a + 1 = b)) as [<-|Hne].
    + by rewrite !range_nil by lia.
    + rewrite (range_cons a (b - 1)) by lia. simpl map. rewrite <- IH by lia.
      rewrite (range_cons (a + 1) b) by lia. reflexivity.
Qed.

Lemma techo_division limite tam :
  0 < tam -> - ((- limite) / tam) - 1 = (limite - 1) / tam.
Proof.
  intros Htam.
  pose proof (Z.mod_pos_bound (- limite) tam Htam) as Hr.
  pose proof (Z.div_mod (- limite) tam ltac:(lia)) as Hq.
  apply Z.div_unique with (r := tam - 1 - (- limite) mod tam); lia.
Qed.

Lemma ventanas_barridas_arange limite tam :
  0 < tam ->
  adyacentes (map (fun k => k * tam) (range 0 (- ((- limite) / tam))))
  = ventanas_barridas limite tam.
Proof.
  intros Htam. rewrite adyacentes_map, adyacentes_range_id, map_map.
  by rewrite techo_division.
Qed.

(** The sweep stops one window early: a whole window is lost when
    [tam | limite], the partial one otherwise. *)
Lemma numero_ventanas_barridas limite tam :
  0 < tam -> 0 < limite ->
  (limite - 1) / tam = if decide (limite mod tam = 0)
                       then limite / tam - 1 else limite / tam.
Proof.
  intros Htam Hlim.
  pose proof (Z.mod_pos_bound limite tam Htam) as Hr.
  pose proof (Z.div_mod limite tam ltac:(lia)) as Hq.
  case_decide as Hm; symmetry.
  - apply Z.div_unique with (r := tam - 1); lia.
  - apply Z.div_unique with (r := limite mod tam - 1); lia.
Qed.

Lemma calcular_densidad_barrido gemelos limite tam :
  0 < tam ->
  calcular_densidad gemelos limite tam
  = Some (map centro_ventana (ventanas_barridas limite tam),
          map (densidad_ventana gemelos tam) (ventanas_barridas limite tam)).
Proof.
  intros Htam. unfold calcular_densidad, np_arange0.
  destruct (Z.eqb_spec tam 0) as [|_]; [lia|]. f_equal.
  rewrite <- (ventanas_barridas_arange limite tam Htam).
  generalize (map (fun k => k * tam) (range 0 (- ((- limite) / tam)))).
  intros ventanas.
  rewrite (fold_left_append2_all
             (fun i => centro_ventana
                         (nth (Z.to_nat i) ventanas 0, nth (Z.to_nat (i + 1)) ventanas 0))
             (fun i => densidad_ventana gemelos tam
                         (nth (Z.to_nat i) ventanas 0, nth (Z.to_nat (i + 1)) ventanas 0))).
  simpl app.
  rewrite <- (adyacentes_range ventanas 0). by rewrite !map_map.
Qed.

(** ** The share of twin primes per window *)


Lemma ventanas_proporcion_explicitas limite :
  ventanas_proporcion limite
  = map (fun i => (inject_Z i * (inject_Z limite / inject_Z (Z.min 100 (limite / 10) - 1)),
                   inject_Z (i + 1) * (inject_Z limite / inject_Z (Z.min 100 (limite / 10) - 1))))%Q
        (range 0 (Z.min 100 (limite / 10) - 1)).
Proof.
  unfold ventanas_proporcion, np_linspace0.
  by rewrite adyacentes_map, adyacentes_range_id, map_map.
Qed.

Lemma proporcion_en_ventanas_filtro todos_primos gemelos limite :
  proporcion_en_ventanas todos_primos gemelos limite
  = (map (fun w => ((fst w + snd w) / 2)%Q) (ventanas_con_primos todos_primos limite),
     map (fun w => (inject_Z (gemelos_en gemelos w * 2)
                    / inject_Z (primos_en todos_primos w))%Q)
         (ventanas_con_primos todos_primos limite)).
Proof.
  unfold proporcion_en_ventanas, ventanas_con_primos, ventanas_proporcion.
  generalize (np_linspace0 limite (Z.min 100 (limite / 10))). intros ventanas.
  rewrite <- (adyacentes_range ventanas 0%Q).
  rewrite filter_map_swap, !map_map.
  exact (fold_left_append2
           (fun i => 0 <? primos_en todos_primos
                           (nth (Z.to_nat i) ventanas 0%Q,
                            nth (Z.to_nat (i + 1)) ventanas 0%Q))
           (fun i => ((nth (Z.to_nat i) ventanas 0 + nth (Z.to_nat (i + 1)) ventanas 0) / 2)%Q)
           (fun i => (inject_Z (gemelos_en gemelos
                                  (nth (Z.to_nat i) ventanas 0%Q,
                                   nth (Z.to_nat (i + 1)) ventanas 0%Q) * 2)
                      / inject_Z (primos_en todos_primos
                                    (nth (Z.to_nat i) ventanas 0%Q,
                                     nth (Z.to_nat (i + 1)) ventanas 0%Q)))%Q)
           (range 0 (len ventanas - 1)) [] []).
Qed.

(** ** The engine on limits below 1 *)

Lemma criba_eratostenes_negativo limite log :
  limite <= -2 -> criba_eratostenes limite log = (log, inl ValueError).
Proof.
  intros Hlim. unfold criba_eratostenes, bind at 1, np_ones.
  destruct (Z.ltb_spec (limite + 1) 0) as [_|]; [done | lia].
Qed.

Lemma criba_eratostenes_cero log :
  criba_eratostenes 0 log = (log ++ [1], inl (IndexError 1 1)).
Proof. reflexivity. Qed.

Lemma criba_eratostenes_menos_uno log :
  criba_eratostenes (-1) log = (log ++ [0], inl (IndexError 0 0)).
Proof. reflexivity. Qed.

Lemma criba_eratostenes_no_positivo limite :
  limite <= 0 -> exists e, snd (run (criba_eratostenes limite)) = inl e.
Proof.
  intros Hlim. unfold run.
  destruct (decide (limite = 0)) as [->|H0];
    [rewrite criba_eratostenes_cero; eauto|].
  destruct (decide (limite = -1)) as [->|H1];
    [rewrite criba_eratostenes_menos_uno; eauto|].
  rewrite criba_eratostenes_negativo by lia. eauto.
Qed.

Lemma gemelos_optimizado_correcto limite log :
  1 <= limite ->
  encontrar_primos_gemelos_optimizado limite log
  = (log ++ [limite + 1], inr (encontrar_primos_gemelos limite)).
Proof.
  intros Hlim. unfold encontrar_primos_gemelos_optimizado, bind.
  by rewrite criba_eratostenes_correcta.
Qed.

(** * The claims *)

(** Claim C1 at [N = 0], where the code departs from it: the sieve
    allocates its one cell and the write [es_primo[1] = False] raises
    [IndexError], and with it the optimised search, while the naive
    generator returns the empty list and the naive search no pair. So the
    two generators do not agree on every [N >= 0]. *)
Theorem criba_difiere_en_cero :
  run (criba_eratostenes 0) = ([1], inl (IndexError 1 1))
  /\ generar_primos 0 = []
  /\ run (encontrar_primos_gemelos_optimizado 0) = ([1], inl (IndexError 1 1))
  /\ encontrar_primos_gemelos 0 = []
  /\ ~ (forall N, 0 <= N ->
          snd (run (criba_eratostenes N)) = inr (generar_primos N)
          /\ snd (run (encontrar_primos_gemelos_optimizado N))
             = inr (encontrar_primos_gemelos N)).
Proof.
  do 4 (split; [reflexivity|]).
  intros H. destruct (H 0 ltac:(lia)) as [H0 _].
  vm_compute in H0. discriminate.
Qed.

(** Claim C2 at limit 0, where the code departs from it: the engine does
    not turn the limit down before allocating. The marker array of one
    cell is allocated and the write that follows raises [IndexError],
    whereas [PrimosGemelosGUI.generar_primos] refuses the same limit
    with its error box, whichever the method. *)
Theorem criba_cero_reserva_antes_de_fallar :
  run (criba_eratostenes 0) = ([1], inl (IndexError 1 1))
  /\ ~ rechazado_sin_reservar (run (criba_eratostenes 0))
  /\ gui_generar_primos Basico 0 = ErrorLimite
  /\ gui_generar_primos Optimizado 0 = ErrorLimite
  /\ ~ (forall limite, limite <= 0 ->
          rechazado_sin_reservar (run (criba_eratostenes limite))).
Proof.
  split; [reflexivity|].
  assert (~ rechazado_sin_reservar (run (criba_eratostenes 0))) as H0.
  { intros [H _]. vm_compute in H. discriminate. }
  split; [exact H0|]. do 2 (split; [reflexivity|]).
  intros H. apply H0, H. lia.
Qed.

(** Claim C3 on its three limits: at 1 [criba_eratostenes] returns the
    empty sequence and the twin-pair sequence is empty, at 2 it returns
    exactly [2], and at 0, where the code departs from the claim, it
    raises [IndexError] and returns no sequence, and so does the
    twin-pair search; the naive generator returns the empty list there. *)
Theorem criba_cero_no_es_vacia :
  run (criba_eratostenes 1) = ([2], inr [])
  /\ run (encontrar_primos_gemelos_optimizado 1) = ([2], inr [])
  /\ run (criba_eratostenes 2) = ([3], inr [2])
  /\ run (criba_eratostenes 0) = ([1], inl (IndexError 1 1))
  /\ run (encontrar_primos_gemelos_optimizado 0) = ([1], inl (IndexError 1 1))
  /\ generar_primos 0 = []
  /\ ~ (forall limite, limite < 2 ->
          snd (run (criba_eratostenes limite)) = inr []
          /\ snd (run (encontrar_primos_gemelos_optimizado limite)) = inr []).
Proof.
  do 6 (split; [reflexivity|]).
  intros H. destruct (H 0 ltac:(lia)) as [H0 _].
  vm_compute in H0. discriminate.
Qed.

(** Claim C4, as stated for every integer, fails from [2^64] on: there
    [np.sqrt] refuses the integer and [es_primo] raises [TypeError]
    instead of returning a boolean. *)
Lemma es_primo_falla_desde_2_64 :
  ~ (forall n, exists b, es_primo n = inr b /\ (b = true <-> Z.prime n)).
Proof.
  intros H. destruct (H (2 ^ 64)) as (b & Hb & _).
  rewrite es_primo_TypeError in Hb by done. discriminate.
Qed.

(** Claim C4, amended to the integers below [2^64]: [es_primo n] returns
    a boolean, which is false when [n < 2]; otherwise it is false exactly
    when some [d] with [2 <= d <= floor(sqrt n)] divides [n]; it is true
    exactly when [n] is prime; and the scan gives that same boolean for
    any bound from [floor(sqrt n)] to [n - 1], whatever the rounding of
    the float64 root. From [2^64] on the call raises [TypeError]. *)
Theorem es_primo_correcto n :
  (n < 2 ^ 64 ->
   exists b,
     es_primo n = inr b
     /\ (n < 2 -> b = false)
     /\ (2 <= n -> (b = false <-> exists d, 2 <= d <= Z.sqrt n /\ (d | n)))
     /\ (b = true <-> Z.prime n)
     /\ (forall raiz, 2 <= n -> Z.sqrt n <= raiz < n ->
                      es_primo_loop n (range 2 (raiz + 1)) = b))
  /\ (2 ^ 64 <= n -> es_primo n = inl TypeError).
Proof.
  split; [|apply es_primo_TypeError].
  intros Hn. exists (es_primo_valor n).
  split; [by apply es_primo_sin_error|].
  split; [|split; [|split]].
  - intros Hlt. unfold es_primo_valor. by destruct (Z.ltb_spec n 2); [|lia].
  - apply es_primo_valor_false.
  - apply es_primo_valor_prime.
  - intros raiz. apply es_primo_loop_raiz.
Qed.

Lemma es_primo_correcto_97 :
  97 < 2 ^ 64
  /\ exists b,
       es_primo 97 = inr b
       /\ (97 < 2 -> b = false)
       /\ (2 <= 97 -> (b = false <-> exists d, 2 <= d <= Z.sqrt 97 /\ (d | 97)))
       /\ (b = true <-> Z.prime 97)
       /\ (forall raiz, 2 <= 97 -> Z.sqrt 97 <= raiz < 97 ->
                        es_primo_loop 97 (range 2 (raiz + 1)) = b).
Proof.
  split; [done|]. exact (proj1 (es_primo_correcto 97) ltac:(done)).
Defined.

(** Claim C5: the scan emits [(primes[i], primes[i+1])] exactly for the
    adjacent indices [i] with [primes[i+1] - primes[i] == 2], once per
    index and in the order of the input; over a strictly increasing
    sequence the pairs come out in strictly ascending order of their first
    element, so none is emitted twice; and the triplet 3, 5, 7 yields the
    two overlapping pairs (3, 5) and (5, 7). *)
Theorem pares_gemelos_correcto (primos : list Z) :
  pares_gemelos primos
  = map (fun i => (nth (Z.to_nat i) primos 0, nth (Z.to_nat (i + 1)) primos 0))
        (List.filter
           (fun i => nth (Z.to_nat (i + 1)) primos 0 - nth (Z.to_nat i) primos 0 =? 2)
           (range 0 (len primos - 1)))
  /\ (forall p q,
        In (p, q) (pares_gemelos primos)
        <-> exists i, 0 <= i < len primos - 1
                      /\ p = nth (Z.to_nat i) primos 0
                      /\ q = nth (Z.to_nat (i + 1)) primos 0
                      /\ q - p = 2)
  /\ (StronglySorted Z.lt primos ->
      StronglySorted Z.lt (map fst (pares_gemelos primos))
      /\ NoDup (pares_gemelos primos))
  /\ pares_gemelos [3; 5; 7] = [(3, 5); (5, 7)].
Proof.
  split; [|split; [|split]].
  - rewrite pares_gemelos_adyacentes, <- (adyacentes_range primos 0).
    by rewrite filter_map_swap.
  - intros p q. rewrite pares_gemelos_adyacentes, filter_In.
    rewrite (In_adyacentes primos 0). unfold diferencia_dos. simpl.
    rewrite Z.eqb_eq. split.
    + intros [(i & Hi & Hp & Hq) Hd]. eauto 6.
    + intros (i & Hi & Hp & Hq & Hd). eauto 6.
  - intros Hs.
    assert (StronglySorted Z.lt (map fst (pares_gemelos primos))) as Hfst.
    { rewrite pares_gemelos_adyacentes.
      eapply StronglySorted_sublist; [apply fst_adyacentes_sublist | done]. }
    split; [done|].
    apply (NoDup_fmap_1 fst). by apply StronglySorted_lt_NoDup.
  - reflexivity.
Qed.

(** Claim C6: on fewer than 2 pairs [analizar_distancias_entre_gemelos]
    returns [([], 0, 0, 0)] and raises nothing; on 2 pairs or more it
    returns the series of the differences of consecutive first primes, of
    length [#pairs - 1], with its mean (times [N] it is the sum of the
    series), its median (the middle of the sorted series) and its
    population standard deviation: non-negative, its square times [N] is
    the sum of the squared deviations from the mean, so that
    [N^2 * std^2 = N * sum of squares - (sum)^2], the divisor being [N]
    and not [N - 1]. On the four pairs up to 20 the series is 2, 6, 6,
    with mean 14/3, median 6 and variance 32/9. *)
Theorem analizar_distancias_correcto (gemelos : list (Z * Z)) :
  (len gemelos < 2 ->
   analizar_distancias_entre_gemelos gemelos
   = {| distancias := []; media := 0; mediana := 0; desviacion := 0 |})
  /\ (2 <= len gemelos ->
      exists ds m md sd,
        analizar_distancias_entre_gemelos gemelos
        = {| distancias := ds; media := m; mediana := md; desviacion := sd |}
        /\ ds = map (fun i => fst (nth (Z.to_nat (i + 1)) gemelos (0, 0))
                              - fst (nth (Z.to_nat i) gemelos (0, 0)))
                    (range 0 (len gemelos - 1))
        /\ len ds = len gemelos - 1
        /\ (m * inject_Z (len ds) == inject_Z (fold_right Z.add 0%Z ds))%Q
        /\ (exists ordenados,
              Sorted Z.le ordenados /\ ordenados ≡ₚ ds
              /\ md = if Nat.even (length ds)
                      then (inject_Z (nth (length ds / 2 - 1) ordenados 0%Z
                                      + nth (length ds / 2) ordenados 0%Z) / 2)%Q
                      else inject_Z (nth (length ds / 2) ordenados 0))
        /\ (0 <= sd)%R
        /\ (sd * sd * IZR (len ds)
            = Q2R (fold_right Qplus 0%Q
                     (map (fun d => (inject_Z d - m) ^ 2)%Q ds)))%R
        /\ (sd * sd * IZR (len ds) * IZR (len ds)
            = IZR (len ds * fold_right Z.add 0 (map (fun d => d * d) ds)
                   - fold_right Z.add 0 ds ^ 2)%Z)%R)
  /\ distancias (analizar_distancias_entre_gemelos [(3, 5); (5, 7); (11, 13); (17, 19)])
     = [2; 6; 6]
  /\ (media (analizar_distancias_entre_gemelos [(3, 5); (5, 7); (11, 13); (17, 19)]%Z)
      == 14 # 3)%Q
  /\ (mediana (analizar_distancias_entre_gemelos [(3, 5); (5, 7); (11, 13); (17, 19)]%Z)
      == 6)%Q
  /\ (desviacion (analizar_distancias_entre_gemelos [(3, 5); (5, 7); (11, 13); (17, 19)]%Z)
      * desviacion (analizar_distancias_entre_gemelos [(3, 5); (5, 7); (11, 13); (17, 19)]%Z)
      * 9
      = 32)%R.
Proof.
  split; [|split; [|split; [|split; [|split]]]].
  - intros Hlt. unfold analizar_distancias_entre_gemelos.
    by destruct (Z.ltb_spec (len gemelos) 2); [|lia].
  - intros Hge.
    pose proof (distancias_adyacentes gemelos) as Hds.
    unfold analizar_distancias_entre_gemelos in *.
    destruct (Z.ltb_spec (len gemelos) 2) as [|_]; [lia|].
    simpl distancias in Hds. rewrite Hds.
    set (ds := map (fun par => fst (snd par) - fst (fst par)) (adyacentes gemelos)).
    assert (len ds = len gemelos - 1) as Hlen.
    { unfold ds, len in *. rewrite length_map, length_adyacentes. lia. }
    assert (ds <> []) as Hne.
    { intros H0. rewrite H0 in Hlen. unfold len in *. simpl in Hlen. lia. }
    exists ds, (np_mean ds), (np_median ds), (np_std ds).
    split; [done|]. split; [|split; [done|split; [|split; [|split; [|split]]]]].
    + unfold ds. rewrite <- (adyacentes_range gemelos (0, 0)). by rewrite map_map.
    + by apply np_mean_suma.
    + apply np_median_ordenado.
    + apply np_std_nonneg.
    + by apply np_std_cuadrado.
    + by apply np_std_enteros.
  - reflexivity.
  - reflexivity.
  - reflexivity.
  - change (desviacion
              (analizar_distancias_entre_gemelos [(3, 5); (5, 7); (11, 13); (17, 19)]))
      with (np_std [2; 6; 6]).
    pose proof (np_std_enteros [2; 6; 6] ltac:(done)) as H.
    change (len [2; 6; 6]) with 3 in H.
    change (3 * fold_right Z.add 0 (map (fun x => x * x) [2; 6; 6])
            - fold_right Z.add 0 [2; 6; 6] ^ 2) with 32 in H.
    lra.
Qed.

(** Claim C7, as stated, fails when the limit is a multiple of the window
    size: at limit 200 and window size 10 the sweep yields 19 windows, not
    the 20 of a partition of [[0, 200)], and the pairs (191, 193) and
    (197, 199) fall in no window. *)
Lemma densidad_pierde_ultima_ventana :
  ~ (forall gemelos limite tam_ventana,
       0 < tam_ventana -> 0 < limite ->
       calcular_densidad gemelos limite tam_ventana
       = Some (map centro_ventana (ventanas_completas limite tam_ventana),
               map (densidad_ventana gemelos tam_ventana)
                   (ventanas_completas limite tam_ventana))).
Proof.
  intros H.
  specialize (H [(191, 193); (197, 199)] 200 (tam_ventana_analisis 200)
                ltac:(done) ltac:(done)).
  apply (f_equal (fun r => len (snd (default ([], []) r)))) in H.
  vm_compute in H. discriminate.
Qed.

(** Claim C7, amended: [calcular_densidad] sweeps the fixed-size windows
    [[i * t, (i + 1) * t)] for [0 <= i < (limite - 1) / t], where [t] is
    the size it is given (the analysis passes [max(limite // 100, 10)]);
    for each window it counts the pairs whose first element [p] has
    [inicio <= p < fin] and divides by [t]. The last window is always
    left out: the partial one when [limite] is not a multiple of [t], the
    whole window [[limite - t, limite)] when it is. *)
Theorem calcular_densidad_ventanas gemelos limite tam_ventana :
  0 < tam_ventana -> 0 < limite ->
  calcular_densidad gemelos limite tam_ventana
  = Some (map centro_ventana (ventanas_barridas limite tam_ventana),
          map (densidad_ventana gemelos tam_ventana)
              (ventanas_barridas limite tam_ventana))
  /\ len (ventanas_barridas limite tam_ventana)
     = (if decide (limite mod tam_ventana = 0)
        then limite / tam_ventana - 1 else limite / tam_ventana)
  /\ (forall w, In w (ventanas_barridas limite tam_ventana) ->
                0 <= fst w /\ snd w = fst w + tam_ventana /\ snd w < limite)
  /\ tam_ventana_analisis limite = Z.max (limite / 100) 10
  /\ 0 < tam_ventana_analisis limite.
Proof.
  intros Htam Hlim. split; [by apply calcular_densidad_barrido|].
  split; [|split; [|split; [done | unfold tam_ventana_analisis; lia]]].
  - unfold ventanas_barridas, len. rewrite length_map, length_range.
    rewrite <- numero_ventanas_barridas by done.
    assert (0 <= (limite - 1) / tam_ventana) by (apply Z.div_pos; lia). lia.
  - intros w Hw. unfold ventanas_barridas in Hw.
    apply in_map_iff in Hw as (i & <- & Hi%In_range). simpl.
    pose proof (Z.mul_div_le (limite - 1) tam_ventana Htam). nia.
Qed.

Lemma calcular_densidad_ventanas_20 :
  0 < 10 /\ 0 < 20
  /\ calcular_densidad [(3, 5); (5, 7); (11, 13); (17, 19)] 20 10
     = Some ([(10 # 2)%Q], [(2 # 10)%Q]).
Proof.
  split; [lia|]. split; [lia|].
  exact (proj1 (calcular_densidad_ventanas
                  [(3, 5); (5, 7); (11, 13); (17, 19)] 20 10
                  ltac:(lia) ltac:(lia))).
Defined.

(** Claim C10: for every limit on which the engine returns, every element
    of the distance series that [analizar_distancias_entre_gemelos]
    computes over the twin pairs of that limit is an even integer and is
    at least 2. *)
Theorem distancias_pares_y_positivas limite gemelos :
  snd (run (encontrar_primos_gemelos_optimizado limite)) = inr gemelos ->
  Forall (fun d => Z.even d = true /\ 2 <= d)
         (distancias (analizar_distancias_entre_gemelos gemelos)).
Proof.
  intros Hrun.
  destruct (Z.le_gt_cases limite 0) as [Hle|Hgt].
  - destruct (criba_eratostenes_no_positivo limite Hle) as (e & He).
    unfold run, encontrar_primos_gemelos_optimizado, bind in *.
    destruct (criba_eratostenes limite []) as [s' [e'|primos]]; simpl in *; congruence.
  - unfold run in Hrun. rewrite gemelos_optimizado_correcto in Hrun by lia.
    simpl in Hrun. injection Hrun as <-. apply distancias_gemelos.
Qed.

Lemma distancias_pares_y_positivas_20 :
  snd (run (encontrar_primos_gemelos_optimizado 20))
  = inr [(3, 5); (5, 7); (11, 13); (17, 19)]
  /\ Forall (fun d => Z.even d = true /\ 2 <= d)
            (distancias (analizar_distancias_entre_gemelos
                           [(3, 5); (5, 7); (11, 13); (17, 19)])).
Proof.
  split; [reflexivity|].
  apply (distancias_pares_y_positivas 20). reflexivity.
Defined.

(** * Further properties of the engine *)

(** ** Adjacent elements of an increasing sequence *)

Lemma In_adyacentes_In {A : Type} (xs : list A) (a b : A) :
  In (a, b) (adyacentes xs) -> In a xs /\ In b xs.
Proof.
  induction xs as [|x [|y t] IH]; [done | done |].
  change (adyacentes (x :: y :: t)) with ((x, y) :: adyacentes (y :: t)).
  intros [[= <- <-]|Hin].
  - split; [by left | right; by left].
  - destruct (IH Hin). split; by right.
Qed.

(** In a strictly increasing sequence, two elements are adjacent exactly
    when no element lies strictly between them. *)
Lemma In_adyacentes_creciente (xs : list Z) (a b : Z) :
  StronglySorted Z.lt xs ->
  In (a, b) (adyacentes xs)
  <-> In a xs /\ In b xs /\ a < b /\ forall c, In c xs -> ~ (a < c < b).
Proof.
  induction xs as [|x [|y t] IH]; intros Hs.
  - simpl. tauto.
  - simpl. split; [done|]. intros ([<-|[]] & [<-|[]] & Hlt & _). lia.
  - change (adyacentes (x :: y :: t)) with ((x, y) :: adyacentes (y :: t)).
    apply StronglySorted_inv in Hs as [Hs Hx].
    pose proof Hs as Hs'. apply StronglySorted_inv in Hs' as [_ Hy].
    rewrite Forall_forall in Hx, Hy.
    assert (Hx' : forall c, In c (y :: t) -> x < c)
      by (intros c Hc; by apply Hx, list_elem_of_In).
    assert (Hy' : forall c, In c t -> y < c)
      by (intros c Hc; by apply Hy, list_elem_of_In).
    split.
    + intros [[= <- <-]|Hin].
      * split; [by left|]. split; [right; by left|].
        split; [apply Hx'; by left|].
        intros c [<-|[<-|Hc]]; [lia | lia |]. specialize (Hy' c Hc). lia.
      * apply (IH Hs) in Hin as (Ha & Hb & Hlt & Hno).
        split; [by right|]. split; [by right|]. split; [done|].
        intros c [<-|Hc]; [|by apply Hno]. specialize (Hx' a Ha). lia.
    + intros (Ha & Hb & Hlt & Hno).
      destruct Ha as [<-|Ha].
      * destruct Hb as [<-|[<-|Hb]]; [lia | by left |].
        destruct (Hno y); [right; by left|].
        split; [apply Hx'; by left | by apply Hy'].
      * right. apply (IH Hs). split; [done|].
        destruct Hb as [<-|Hb]; [specialize (Hx' a Ha); lia|].
        split; [done|]. split; [done|].
        intros c Hc. apply Hno. by right.
Qed.

(** ** What the generators return *)

Lemma siguiente_no_primo p : Z.prime p -> Z.prime (p + 2) -> ~ Z.prime (p + 1).
Proof.
  intros Hp Hq Hm.
  destruct (Z.even p) eqn:Hev.
  - apply primo_par in Hev; [|done]. subst p. by destruct cuatro_no_primo.
  - assert (Z.even (p + 1) = true) as Hev1.
    { rewrite Z.even_add, Hev. done. }
    apply primo_par in Hev1; [|done].
    destruct Hp as [Hp _]. lia.
Qed.

Lemma In_encontrar_primos_gemelos limite p q :
  In (p, q) (encontrar_primos_gemelos limite)
  <-> Z.prime p /\ Z.prime q /\ q = p + 2 /\ q <= limite.
Proof.
  unfold encontrar_primos_gemelos.
  rewrite pares_gemelos_adyacentes, filter_In.
  rewrite (In_adyacentes_creciente _ _ _ (generar_primos_creciente limite)).
  unfold diferencia_dos. simpl. rewrite Z.eqb_eq, !In_generar_primos.
  split.
  - intros [([_ Hp] & [Hq' Hq] & _) Hd].
    split; [done|]. split; [done|]. lia.
  - intros (Hp & Hq & -> & Hle).
    pose proof (Z.prime_ge_2 p Hp).
    split; [|lia].
    split; [split; [lia | done]|].
    split; [split; [lia | done]|].
    split; [lia|].
    intros c [_ Hc]%In_generar_primos Hbetween.
    replace c with (p + 1) in Hc by lia.
    by apply (siguiente_no_primo p).
Qed.

(** ** Growing the limit *)

Lemma range_app a b c : a <= b <= c -> range a c = range a b ++ range b c.
Proof.
  intros Hbc. unfold range.
  replace (c - a) with ((b - a) + (c - b)) by lia.
  rewrite seqZ_app by lia. do 2 f_equal; lia.
Qed.

Lemma generar_primos_prefix limite limite' :
  limite <= limite' -> generar_primos limite `prefix_of` generar_primos limite'.
Proof.
  intros Hle. rewrite !generar_primos_filter.
  destruct (Z.lt_ge_cases limite 1) as [Hlt|Hge].
  - rewrite (range_nil 2 (limite + 1)) by lia. apply prefix_nil.
  - rewrite (range_app 2 (limite + 1) (limite' + 1)) by lia.
    rewrite List.filter_app. by eexists.
Qed.

Lemma adyacentes_prefix {A : Type} (xs ys : list A) :
  adyacentes xs `prefix_of` adyacentes (xs ++ ys).
Proof.
  induction xs as [|x [|y t] IH]; [apply prefix_nil | apply prefix_nil |].
  change ((x :: y :: t) ++ ys) with (x :: y :: (t ++ ys)).
  change (adyacentes (x :: y :: t)) with ((x, y) :: adyacentes (y :: t)).
  change (adyacentes (x :: y :: t ++ ys))
    with ((x, y) :: adyacentes ((y :: t) ++ ys)).
  by apply prefix_cons.
Qed.

Lemma List_filter_prefix {A : Type} (f : A -> bool) (xs ys : list A) :
  xs `prefix_of` ys -> List.filter f xs `prefix_of` List.filter f ys.
Proof. intros [k ->]. rewrite List.filter_app. by eexists. Qed.

Lemma pares_gemelos_prefix primos primos' :
  primos `prefix_of` primos' -> pares_gemelos primos `prefix_of` pares_gemelos primos'.
Proof.
  intros [k ->]. rewrite !pares_gemelos_adyacentes.
  apply List_filter_prefix, adyacentes_prefix.
Qed.

Lemma encontrar_primos_gemelos_prefix limite limite' :
  limite <= limite' ->
  encontrar_primos_gemelos limite `prefix_of` encontrar_primos_gemelos limite'.
Proof.
  intros Hle. by apply pares_gemelos_prefix, generar_primos_prefix.
Qed.

(** ** The output of either search *)

Lemma salida_del_motor_basico limite gemelos :
  salida_del_motor limite gemelos -> gemelos = encontrar_primos_gemelos limite.
Proof.
  intros [->|Hrun]; [done|].
  destruct (Z.le_gt_cases limite 0) as [Hle|Hgt].
  - destruct (criba_eratostenes_no_positivo limite Hle) as (e & He).
    unfold run, encontrar_primos_gemelos_optimizado, bind in *.
    destruct (criba_eratostenes limite []) as [s' [e'|primos]]; simpl in *; congruence.
  - unfold run in Hrun. rewrite gemelos_optimizado_correcto in Hrun by lia.
    simpl in Hrun. by injection Hrun as <-.
Qed.

Lemma In_primeros_gemelos limite a :
  In a (map fst (encontrar_primos_gemelos limite))
  <-> Z.prime a /\ Z.prime (a + 2) /\ a + 2 <= limite.
Proof.
  rewrite in_map_iff. split.
  - intros ([p q] & <- & Hin). simpl.
    apply In_encontrar_primos_gemelos in Hin as (Hp & Hq & -> & Hle). done.
  - intros (Hp & Hq & Hle). exists (a, a + 2). split; [done|].
    by apply In_encontrar_primos_gemelos.
Qed.

(** ** Twin primes modulo 6 *)

Lemma gemelo_mod_6 p : Z.prime p -> Z.prime (p + 2) -> 3 < p -> p mod 6 = 5.
Proof.
  intros [_ Hp] [_ Hq] Hgt.
  pose proof (Z.mod_pos_bound p 6 ltac:(lia)) as Hr.
  pose proof (Z.div_mod p 6 ltac:(lia)) as Hdiv.
  assert (p mod 6 = 0 \/ p mod 6 = 1 \/ p mod 6 = 2 \/ p mod 6 = 3
          \/ p mod 6 = 4 \/ p mod 6 = 5) as Hcases by lia.
  destruct Hcases as [H|[H|[H|[H|[H|H]]]]]; [| | | | |done]; exfalso.
  - apply (Hp 2); [lia|]. exists (3 * (p / 6)). lia.
  - apply (Hq 3); [lia|]. exists (2 * (p / 6) + 1). lia.
  - apply (Hp 2); [lia|]. exists (3 * (p / 6) + 1). lia.
  - apply (Hp 3); [lia|]. exists (2 * (p / 6) + 1). lia.
  - apply (Hp 2); [lia|]. exists (3 * (p / 6) + 2). lia.
Qed.

Lemma primer_gemelo_desde_3 limite a :
  In a (map fst (encontrar_primos_gemelos limite)) -> 3 <= a.
Proof.
  intros (Hp & Hq & _)%In_primeros_gemelos.
  pose proof (Z.prime_ge_2 a Hp).
  destruct (decide (a = 2)) as [->|]; [by destruct cuatro_no_primo | lia].
Qed.

Lemma distancias_primeros gemelos :
  distancias (analizar_distancias_entre_gemelos gemelos)
  = map (fun ab => snd ab - fst ab) (adyacentes (map fst gemelos)).
Proof. by rewrite distancias_adyacentes, adyacentes_map, map_map. Qed.

Lemma distancia_entre_gemelos limite a b :
  In (a, b) (adyacentes (map fst (encontrar_primos_gemelos limite))) ->
  (a = 3 /\ b = 5) \/ (3 < a /\ 6 <= b - a /\ (6 | b - a)).
Proof.
  intros Hin.
  apply (In_adyacentes_creciente _ _ _ (primeros_gemelos_creciente limite)) in Hin
    as (Ha & Hb & Hlt & Hno).
  pose proof (primer_gemelo_desde_3 _ _ Ha) as Ha3.
  pose proof Ha as Ha'. pose proof Hb as Hb'.
  apply In_primeros_gemelos in Ha' as (Hpa & Hqa & Hla).
  apply In_primeros_gemelos in Hb' as (Hpb & Hqb & Hlb).
  pose proof (gemelo_mod_6 b Hpb Hqb ltac:(lia)) as Hb6.
  pose proof (Z.div_mod b 6 ltac:(lia)) as Hbd.
  destruct (decide (a = 3)) as [->|Hne].
  - left. split; [done|].
    destruct (decide (b = 5)) as [|Hb5]; [done|]. exfalso.
    apply (Hno 5); [|lia].
    apply In_primeros_gemelos. split; [by apply es_primo_valor_prime|].
    split; [by apply es_primo_valor_prime | lia].
  - right. split; [lia|].
    pose proof (gemelo_mod_6 a Hpa Hqa ltac:(lia)) as Ha6.
    pose proof (Z.div_mod a 6 ltac:(lia)) as Had.
    assert ((6 | b - a)) as Hd by (exists (b / 6 - a / 6); lia).
    split; [|done]. destruct Hd as [k Hk]. lia.
Qed.

(** ** Sums of distances *)

Lemma suma_diferencias (xs : list Z) :
  suma (map (fun ab => snd ab - fst ab) (adyacentes xs)) = List.last xs 0 - hd 0 xs.
Proof.
  induction xs as [|x [|y t] IH]; [done | simpl; lia |].
  change (adyacentes (x :: y :: t)) with ((x, y) :: adyacentes (y :: t)).
  change (List.last (x :: y :: t) 0) with (List.last (y :: t) 0).
  simpl map. simpl suma. simpl suma in IH. rewrite IH. simpl. lia.
Qed.

Lemma suma_cota_inferior (c : Z) (xs : list Z) :
  Forall (fun x => c <= x) xs -> c * len xs <= suma xs.
Proof.
  unfold len. induction 1 as [|x xs Hx _ IH]; simpl suma; simpl length; lia.
Qed.

Lemma np_mean_cota_inferior (c : Z) (xs : list Z) :
  xs <> [] -> Forall (fun x => c <= x) xs -> (inject_Z c <= np_mean xs)%Q.
Proof.
  intros Hne Hall. unfold np_mean. apply Qle_shift_div_l.
  - by apply inject_Z_len_pos.
  - rewrite <- inject_Z_mult, <- Zle_Qle. by apply suma_cota_inferior.
Qed.

Lemma np_median_cota_inferior (c : Z) (xs : list Z) :
  xs <> [] -> Forall (fun x => c <= x) xs -> (inject_Z c <= np_median xs)%Q.
Proof.
  intros Hne Hall. unfold np_median.
  assert (Forall (fun x => c <= x) (merge_sort Z.le xs)) as Hord
      by (by rewrite merge_sort_Permutation).
  assert (length (merge_sort Z.le xs) = length xs) as Hlen
      by (by rewrite merge_sort_Permutation).
  assert (Hnth : forall i, (i < length xs)%nat -> c <= nth i (merge_sort Z.le xs) 0).
  { intros i Hi. rewrite Forall_forall in Hord. apply Hord.
    apply list_elem_of_In, nth_In. lia. }
  assert (0 < length xs)%nat as Hpos by (destruct xs; [done | simpl; lia]).
  pose proof (Nat.div_lt (length xs) 2 Hpos ltac:(lia)) as Hhalf.
  destruct (Nat.even (length xs)) eqn:Hev.
  - apply Qle_shift_div_l; [done|].
    change 2%Q with (inject_Z 2).
    rewrite <- (inject_Z_mult c 2), <- Zle_Qle.
    pose proof (Hnth (length xs / 2 - 1)%nat ltac:(lia)).
    pose proof (Hnth (length xs / 2)%nat ltac:(lia)). lia.
  - rewrite <- Zle_Qle. by apply Hnth.
Qed.

(** ** Counting in windows *)

Lemma range_snoc a b : a <= b -> range a (b + 1) = range a b ++ [b].
Proof.
  intros Hab. rewrite (range_app a b (b + 1)) by lia.
  f_equal. rewrite range_cons by lia. by rewrite range_nil by lia.
Qed.

Lemma contar_nonneg {A : Type} (cond : A -> bool) (xs : list A) : 0 <= contar cond xs.
Proof. unfold contar, len. lia. Qed.

Lemma contar_partido (xs : list Z) (a b c : Z) :
  a <= b <= c ->
  contar (fun p => (a <=? p) && (p <? c)) xs
  = contar (fun p => (a <=? p) && (p <? b)) xs
    + contar (fun p => (b <=? p) && (p <? c)) xs.
Proof.
  intros Habc. unfold contar, len.
  induction xs as [|x xs IH]; [done|]. simpl.
  destruct (Z.leb_spec a x), (Z.ltb_spec x c), (Z.leb_spec b x), (Z.ltb_spec x b);
    simpl; lia.
Qed.

Lemma contar_vacio (xs : list Z) (a b : Z) :
  b <= a -> contar (fun p => (a <=? p) && (p <? b)) xs = 0.
Proof.
  intros Hba. unfold contar, len.
  induction xs as [|x xs IH]; [done|]. simpl.
  destruct (Z.leb_spec a x), (Z.ltb_spec x b); simpl; lia.
Qed.

Lemma contar_ventanas (xs : list Z) (tam : Z) (n : nat) :
  0 < tam ->
  suma (map (fun i => contar (fun p => (i * tam <=? p) && (p <? (i + 1) * tam)) xs)
            (range 0 (Z.of_nat n)))
  = contar (fun p => (0 <=? p) && (p <? Z.of_nat n * tam)) xs.
Proof.
  intros Htam. induction n as [|n IH].
  - rewrite range_nil by done. by rewrite contar_vacio.
  - replace (Z.of_nat (S n)) with (Z.of_nat n + 1) by lia.
    rewrite range_snoc by lia. rewrite map_app. simpl map.
    assert (Hsuma : forall l1 l2, suma (l1 ++ l2) = suma l1 + suma l2).
    { intros l1 l2. induction l1 as [|y l1 IHl]; simpl; lia. }
    rewrite Hsuma, IH. simpl suma.
    rewrite (contar_partido xs 0 (Z.of_nat n * tam) ((Z.of_nat n + 1) * tam)) by nia.
    lia.
Qed.

Lemma suma_densidades (cuenta : Z * Z -> Z) (tam : Z) (ws : list (Z * Z)) :
  0 < tam ->
  (fold_right Qplus 0 (map (fun w => inject_Z (cuenta w) / inject_Z tam) ws)
   * inject_Z tam
   == inject_Z (suma (map cuenta ws)))%Q.
Proof.
  intros Htam.
  assert (~ inject_Z tam == 0)%Q as Hne.
  { change 0%Q with (inject_Z 0). rewrite inject_Z_injective. lia. }
  induction ws as [|w ws IH]; simpl; [by rewrite Qmult_0_l|].
  rewrite inject_Z_plus, <- IH. by field.
Qed.

(** Distinct integers of [[a, b)] number at most [b - a]. *)
Lemma contar_NoDup (xs : list Z) (a b : Z) :
  NoDup xs -> a <= b -> contar (fun p => (a <=? p) && (p <? b)) xs <= b - a.
Proof.
  intros Hnd Hab. unfold contar, len.
  set (dentro := List.filter (fun p => (a <=? p) && (p <? b)) xs).
  assert (NoDup dentro) as Hnd'
      by (eapply sublist_NoDup; [done | apply List_filter_sublist]).
  assert (dentro ⊆+ seqZ a (b - a)) as Hsub.
  { apply NoDup_submseteq; [done|]. intros x Hx%list_elem_of_In.
    unfold dentro in Hx. apply filter_In in Hx as [_ Hx].
    apply andb_true_iff in Hx as [H1%Z.leb_le H2%Z.ltb_lt].
    apply elem_of_seqZ. lia. }
  apply submseteq_length in Hsub. rewrite length_seqZ in Hsub. lia.
Qed.




(** ** Distances of the pairs either search returns *)

Lemma tail_adyacentes {A : Type} (xs : list A) :
  tail (adyacentes xs) = adyacentes (tail xs).
Proof. by destruct xs as [|x [|y t]]. Qed.

Lemma tail_map {A B : Type} (f : A -> B) (xs : list A) :
  tail (map f xs) = map f (tail xs).
Proof. by destruct xs. Qed.

Lemma In_adyacentes_tail {A : Type} (xs : list A) (ab : A * A) :
  In ab (adyacentes (tail xs)) -> In ab (adyacentes xs).
Proof. rewrite <- tail_adyacentes. destruct (adyacentes xs); [done | by right]. Qed.

Lemma distancias_tras_la_primera limite a b :
  In (a, b) (adyacentes (tail (map fst (encontrar_primos_gemelos limite)))) ->
  6 <= b - a /\ (6 | b - a).
Proof.
  intros Hin.
  pose proof (primeros_gemelos_creciente limite) as Hs.
  assert (3 < a) as Ha.
  { destruct (map fst (encontrar_primos_gemelos limite)) as [|x t] eqn:Heq; [done|].
    assert (3 <= x) as Hx
        by (apply (primer_gemelo_desde_3 limite); rewrite Heq; by left).
    apply StronglySorted_inv in Hs as [_ Hall]. rewrite Forall_forall in Hall.
    apply In_adyacentes_In in Hin as [Hin _].
    specialize (Hall a). rewrite list_elem_of_In in Hall.
    specialize (Hall Hin). lia. }
  apply In_adyacentes_tail, distancia_entre_gemelos in Hin
    as [[-> _]|(_ & H6 & Hdiv)]; [lia | done].
Qed.

Lemma last_map_fst (gemelos : list (Z * Z)) :
  List.last (map fst gemelos) 0 = fst (List.last gemelos (0, 0)).
Proof.
  induction gemelos as [|g [|g' t] IH]; [done | done |].
  change (List.last (g :: g' :: t) (0, 0)) with (List.last (g' :: t) (0, 0)).
  rewrite <- IH. reflexivity.
Qed.

Lemma hd_map_fst (gemelos : list (Z * Z)) :
  hd 0 (map fst gemelos) = fst (hd (0, 0) gemelos).
Proof. by destruct gemelos. Qed.

(** ** Densities and shares *)

Lemma ventanas_barridas_vacias limite tam :
  0 < tam -> ventanas_barridas limite tam = [] <-> limite <= tam.
Proof.
  intros Htam. unfold ventanas_barridas. split.
  - intros H0. apply (f_equal (@length (Z * Z))) in H0.
    rewrite length_map, length_range in H0. simpl in H0.
    destruct (Z.le_gt_cases limite tam) as [|Hgt]; [done|].
    assert (1 <= (limite - 1) / tam) by (apply Z.div_le_lower_bound; lia). lia.
  - intros Hle. rewrite range_nil; [done|].
    destruct (Z.le_gt_cases limite 0) as [Hneg|Hpos].
    + assert ((limite - 1) / tam < 0) by (apply Z.div_lt_upper_bound; lia). lia.
    + rewrite Z.div_small by lia. lia.
Qed.



(** ** The consumers of the pairs *)

Lemma pares_gemelos_diferencia primos :
  Forall (fun par => snd par = fst par + 2) (pares_gemelos primos).
Proof.
  rewrite pares_gemelos_adyacentes. apply Forall_forall.
  intros par [_ Hd]%list_elem_of_In%filter_In.
  unfold diferencia_dos in Hd. apply Z.eqb_eq in Hd. lia.
Qed.

Lemma salida_del_motor_diferencia limite gemelos :
  salida_del_motor limite gemelos ->
  Forall (fun par => snd par = fst par + 2) gemelos.
Proof. intros ->%salida_del_motor_basico. apply pares_gemelos_diferencia. Qed.

Lemma optimizado_no_positivo limite :
  limite <= 0 ->
  exists e, snd (run (encontrar_primos_gemelos_optimizado limite)) = inl e.
Proof.
  intros Hlim. destruct (criba_eratostenes_no_positivo limite Hlim) as (e & He).
  exists e. unfold run, encontrar_primos_gemelos_optimizado, bind in *.
  destruct (criba_eratostenes limite []) as [s' [e'|primos]]; simpl in *; congruence.
Qed.

Lemma optimizado_positivo limite :
  1 <= limite ->
  snd (run (encontrar_primos_gemelos_optimizado limite))
  = inr (encontrar_primos_gemelos limite).
Proof. intros Hlim. unfold run. by rewrite gemelos_optimizado_correcto. Qed.

Lemma List_filter_todos {A : Type} (f : A -> bool) (xs : list A) :
  Forall (fun x => f x = true) xs -> List.filter f xs = xs.
Proof.
  induction 1 as [|x xs Hx _ IH]; [done|]. simpl. by rewrite Hx, IH.
Qed.

Lemma resaltar_en_rango n limite primos :
  Forall (fun p => 1 <= p) primos -> limite <= n ->
  resaltar n limite primos
  = inr (map (fun p => Z.to_nat (p - 1)) (List.filter (fun p => p <=? limite) primos)).
Proof.
  intros Hall Hn. induction Hall as [|p primos Hp _ IH]; [done|]. simpl.
  destruct (Z.leb_spec p limite) as [Hle|Hgt]; [|done].
  rewrite norm_index_in by lia. by rewrite IH.
Qed.

Lemma In_primos_en_pares gemelos x :
  In x (primos_en_pares gemelos)
  <-> exists par, In par gemelos /\ (x = fst par \/ x = snd par).
Proof.
  unfold primos_en_pares. rewrite in_flat_map. split.
  - intros (par & Hin & [<-|[<-|[]]]); eauto.
  - intros (par & Hin & [->| ->]); exists par; simpl; auto.
Qed.

Lemma primos_en_pares_cotas limite x :
  In x (primos_en_pares (encontrar_primos_gemelos limite)) -> 2 <= x <= limite.
Proof.
  intros ([p q] & Hin & Hx)%In_primos_en_pares. simpl in Hx.
  apply In_encontrar_primos_gemelos in Hin as (Hp & Hq & -> & Hle).
  pose proof (Z.prime_ge_2 p Hp). lia.
Qed.

(** ** Counters *)

Lemma existsb_eqb (x : Z) (ks : list Z) : existsb (Z.eqb x) ks = true <-> In x ks.
Proof.
  rewrite existsb_exists. split.
  - intros (y & Hy & ->%Z.eqb_eq). done.
  - intros Hx. exists x. by rewrite Z.eqb_refl.
Qed.

Lemma primeras_snoc xs x :
  primeras (xs ++ [x])
  = if existsb (Z.eqb x) (primeras xs) then primeras xs else primeras xs ++ [x].
Proof. unfold primeras. by rewrite fold_left_app. Qed.

Lemma In_primeras xs k : In k (primeras xs) <-> In k xs.
Proof.
  induction xs as [|x xs IH] using rev_ind; [done|].
  rewrite primeras_snoc, in_app_iff. simpl.
  destruct (existsb (Z.eqb x) (primeras xs)) eqn:Hex.
  - apply existsb_eqb in Hex. rewrite IH. split; [auto|].
    intros [H|[<-|[]]]; [done|]. by apply IH.
  - rewrite in_app_iff, IH. simpl. done.
Qed.

Lemma NoDup_primeras xs : NoDup (primeras xs).
Proof.
  induction xs as [|x xs IH] using rev_ind; [constructor|].
  rewrite primeras_snoc.
  destruct (existsb (Z.eqb x) (primeras xs)) eqn:Hex; [done|].
  apply NoDup_app. split; [done|]. split; [|apply NoDup_singleton].
  intros k Hk ->%list_elem_of_singleton.
  apply list_elem_of_In, existsb_eqb in Hk. congruence.
Qed.

Lemma apariciones_snoc k xs x :
  apariciones k (xs ++ [x]) = apariciones k xs + (if k =? x then 1 else 0).
Proof.
  unfold apariciones, contar, len. rewrite List.filter_app, length_app. simpl.
  destruct (k =? x); simpl; lia.
Qed.

Lemma apariciones_nonneg k xs : 0 <= apariciones k xs.
Proof. apply contar_nonneg. Qed.

Lemma apariciones_cero k xs : ~ In k xs -> apariciones k xs = 0.
Proof.
  intros Hk. unfold apariciones, contar, len.
  induction xs as [|x xs IH]; [done|]. simpl.
  destruct (Z.eqb_spec k x) as [->|_]; [destruct Hk; by left|].
  apply IH. intros H. apply Hk. by right.
Qed.

Lemma apariciones_pos k xs : In k xs -> 0 < apariciones k xs.
Proof.
  intros Hk. unfold apariciones, contar, len.
  induction xs as [|x xs IH]; [done|]. simpl.
  destruct (Z.eqb_spec k x) as [->|Hne]; [simpl; lia|].
  destruct Hk as [->|Hk]; [done | by apply IH].
Qed.

(** With distinct keys, counting [x] once more adds 1 to its item, or
    appends the item [(x, 1)] when [x] is new. *)
Lemma contador_sumar_map (f : Z -> Z) (x : Z) (ks : list Z) :
  NoDup ks ->
  contador_sumar x (map (fun k => (k, f k)) ks)
  = map (fun k => (k, if k =? x then f k + 1 else f k)) ks
    ++ (if existsb (Z.eqb x) ks then [] else [(x, 1)]).
Proof.
  induction 1 as [|k ks Hk Hnd IH]; [done|]. simpl.
  destruct (Z.eqb_spec k x) as [->|Hne].
  - rewrite Z.eqb_refl. simpl. rewrite app_nil_r. f_equal.
    apply map_ext_in. intros k Hin.
    destruct (Z.eqb_spec k x) as [->|_]; [|done].
    destruct Hk. by apply list_elem_of_In.
  - rewrite IH. destruct (Z.eqb_spec x k) as [->|_]; [done|]. done.
Qed.

Lemma Counter_snoc xs x : Counter (xs ++ [x]) = contador_sumar x (Counter xs).
Proof. unfold Counter. by rewrite fold_left_app. Qed.

(** A counter holds the distinct values in order of first occurrence,
    each with its number of occurrences. *)
Lemma Counter_primeras xs :
  Counter xs = map (fun k => (k, apariciones k xs)) (primeras xs).
Proof.
  induction xs as [|x xs IH] using rev_ind; [done|].
  rewrite Counter_snoc, IH, primeras_snoc.
  rewrite contador_sumar_map by apply NoDup_primeras.
  destruct (existsb (Z.eqb x) (primeras xs)) eqn:Hex.
  - rewrite app_nil_r. apply map_ext. intros k. rewrite apariciones_snoc.
    destruct (k =? x); [done | by rewrite Z.add_0_r].
  - rewrite map_app. simpl. f_equal.
    + apply map_ext. intros k. rewrite apariciones_snoc.
      destruct (k =? x); [done | by rewrite Z.add_0_r].
    + rewrite apariciones_snoc, Z.eqb_refl, apariciones_cero; [done|].
      rewrite <- In_primeras, <- existsb_eqb. congruence.
Qed.

(** [max_por_cuenta] returns the first item of largest count: the items
    before it have strictly smaller counts, and no item a larger one. *)
Lemma max_por_cuenta_primero (mejor : Z * Z) (items : list (Z * Z)) :
  exists antes despues,
    mejor :: items = antes ++ max_por_cuenta mejor items :: despues
    /\ Forall (fun item => snd item < snd (max_por_cuenta mejor items)) antes
    /\ Forall (fun item => snd item <= snd (max_por_cuenta mejor items)) despues.
Proof.
  revert mejor. induction items as [|item resto IH]; intros mejor; simpl.
  - exists [], []. done.
  - destruct (Z.ltb_spec (snd mejor) (snd item)) as [Hlt|Hge].
    + destruct (IH item) as (antes & despues & Heq & Hantes & Hdespues).
      exists (mejor :: antes), despues. rewrite Heq at 1. split; [done|].
      split; [|done]. constructor; [|done].
      assert (snd item <= snd (max_por_cuenta item resto)); [|lia].
      destruct antes as [|a antes'].
      * injection Heq as <- _. lia.
      * injection Heq as <- _. apply Forall_inv in Hantes. simpl in Hantes. lia.
    + destruct (IH mejor) as (antes & despues & Heq & Hantes & Hdespues).
      destruct antes as [|a antes'].
      * injection Heq as Hm Hr. exists [], (item :: despues). simpl.
        split; [congruence|]. split; [done|].
        constructor; [by rewrite <- Hm | done].
      * injection Heq as <- Hr. exists (mejor :: item :: antes'), despues. simpl.
        split; [congruence|]. split; [|done].
        pose proof (Forall_inv Hantes) as Hmejor. simpl in Hmejor.
        constructor; [done|].
        constructor; [lia | by apply Forall_inv_tail in Hantes].
Qed.

(** When [m] stands before [y] among the distinct values, [m] occurs in
    the list before any [y] does. *)
Lemma primeras_orden xs k1 m k2 y :
  primeras xs = k1 ++ m :: k2 -> In y k2 ->
  exists pre post, xs = pre ++ m :: post /\ ~ In y pre.
Proof.
  revert k2. induction xs as [|x xs IH] using rev_ind; intros k2 Heq Hy.
  - by destruct k1.
  - rewrite primeras_snoc in Heq.
    destruct (existsb (Z.eqb x) (primeras xs)) eqn:Hex.
    + destruct (IH k2 Heq Hy) as (pre & post & -> & Hpre).
      exists pre, (post ++ [x]). by rewrite <- app_assoc.
    + destruct (exists_last (l := k2)) as (k2' & z & ->); [by destruct k2|].
      rewrite app_comm_cons, app_assoc in Heq.
      apply app_inj_tail in Heq as [Heq <-].
      apply in_app_iff in Hy as [Hy|[<-|[]]].
      * destruct (IH k2' Heq Hy) as (pre & post & -> & Hpre).
        exists pre, (post ++ [x]). by rewrite <- app_assoc.
      * assert (~ In x xs) as Hx.
        { rewrite <- In_primeras, <- existsb_eqb. congruence. }
        assert (In m xs) as Hm.
        { apply In_primeras. rewrite Heq. apply in_app_iff. right. by left. }
        apply in_split in Hm as (pre & post & ->).
        exists pre, (post ++ [x]). split; [by rewrite <- app_assoc|].
        intros Hin. apply Hx. apply in_app_iff. by left.
Qed.

(** ** The comparison with the estimate *)








(** ** The shares over float64 windows *)

Lemma fold_left_igual {A B : Type} (f g : A -> B -> A) (xs : list B) (a : A) :
  (forall a x, f a x = g a x) -> fold_left f xs a = fold_left g xs a.
Proof.
  intros Hfg. revert a. induction xs as [|x xs IH]; intros a; [done|].
  simpl. by rewrite Hfg, IH.
Qed.

Lemma contar_existsb {A : Type} (f : A -> bool) (xs : list A) :
  (0 <? contar f xs) = existsb f xs.
Proof.
  unfold contar, len. induction xs as [|x xs IH]; [done|].
  simpl. destruct (f x); simpl; [|exact IH].
  apply Z.ltb_lt. lia.
Qed.

Lemma np_linspace0_f64_puntos stop num :
  0 <= num ->
  exists ventanas,
    np_linspace0_f64 stop num = inr ventanas
    /\ length ventanas = Z.to_nat num
    /\ (2 <= num -> last ventanas = Some (f64_of_Z stop)).
Proof.
  intros Hnum. unfold np_linspace0_f64.
  destruct (Z.ltb_spec num 0) as [|_]; [lia|].
  destruct (Z.leb_spec num 1) as [Hle|Hgt].
  - eexists. split; [done|]. split; [|lia].
    rewrite length_map, length_range. lia.
  - eexists. split; [done|]. split.
    + rewrite length_app, length_map, length_range. simpl. lia.
    + intros _. apply last_snoc.
Qed.

Lemma proporcion_en_ventanas_f64_filtro todos_primos gemelos limite ventanas :
  np_linspace0_f64 limite (Z.min 100 (limite / 10)) = inr ventanas ->
  proporcion_en_ventanas_f64 todos_primos gemelos limite
  = inr (map (fun w => f64_div (f64_add (fst w) (snd w)) (f64_of_Z 2))
             (ventanas_con_primos_f64 todos_primos ventanas),
         map (fun w =>
                f64_div
                  (f64_of_Z
                     (2 * Z.of_nat
                            (length (List.filter
                                       (fun g => en_ventana_f64 (fst w) (snd w) (fst g))
                                       gemelos))))
                  (f64_of_Z
                     (Z.of_nat
                        (length (List.filter (en_ventana_f64 (fst w) (snd w))
                                             todos_primos)))))
             (ventanas_con_primos_f64 todos_primos ventanas)).
Proof.
  intros Hv. unfold proporcion_en_ventanas_f64, ventanas_con_primos_f64.
  rewrite Hv. f_equal.
  rewrite <- (adyacentes_range ventanas (f64_of_Z 0)).
  rewrite filter_map_swap, !map_map.
  etrans;
    [|exact (fold_left_append2
               (fun i => existsb (en_ventana_f64
                                    (nth (Z.to_nat i) ventanas (f64_of_Z 0))
                                    (nth (Z.to_nat (i + 1)) ventanas (f64_of_Z 0)))
                                 todos_primos)
               _ _ (range 0 (len ventanas - 1)) [] [])].
  apply fold_left_igual. intros [centros proporciones] i.
  rewrite contar_existsb. simpl fst. simpl snd.
  rewrite (Z.mul_comm 2). reflexivity.
Qed.

(** * The claims on the comparison and on the shares *)




(** Claim C9: the ratio analysis runs over the windows between
    consecutive points of [np.linspace(0, limite, min(100, limite // 10))],
    float64 numbers of which the last is the limit itself; membership is
    [inicio <= p < fin], in float64, both for the primes and for the
    first element of the pairs; it records the centre and
    [(2 * pairs) / primes] for exactly the windows holding at least one
    prime, in order, and nothing for a window with no prime. At limit 40
    the shares are 1, 2/3 and 2/3 over the windows cut at 40/3 and
    2 * (40/3). At limit 478 the 24th point is 23 * (478/46), which
    float64 rounds above 239, so the prime 239 is counted in the window
    that ends there and not, as with exact points, in the one that
    starts there. A negative limit makes [np.linspace] raise. *)
Theorem proporcion_en_ventanas_correcta todos_primos gemelos limite :
  (limite < 0 ->
   proporcion_en_ventanas_f64 todos_primos gemelos limite = inl ValueError)
  /\ (0 <= limite ->
      exists ventanas,
        np_linspace0_f64 limite (Z.min 100 (limite / 10)) = inr ventanas
        /\ length ventanas = Z.to_nat (Z.min 100 (limite / 10))
        /\ (20 <= limite -> last ventanas = Some (f64_of_Z limite))
        /\ proporcion_en_ventanas_f64 todos_primos gemelos limite
           = inr (map (fun w => f64_div (f64_add (fst w) (snd w)) (f64_of_Z 2))
                      (ventanas_con_primos_f64 todos_primos ventanas),
                  map (fun w =>
                         f64_div
                           (f64_of_Z
                              (2 * Z.of_nat
                                     (length
                                        (List.filter
                                           (fun g => en_ventana_f64 (fst w) (snd w) (fst g))
                                           gemelos))))
                           (f64_of_Z
                              (Z.of_nat
                                 (length (List.filter (en_ventana_f64 (fst w) (snd w))
                                                      todos_primos)))))
                      (ventanas_con_primos_f64 todos_primos ventanas))
        /\ (forall w, In w (ventanas_con_primos_f64 todos_primos ventanas)
                      <-> In w (adyacentes ventanas)
                          /\ exists p, In p todos_primos
                                       /\ f64_leb (fst w) (f64_of_Z p) = true
                                       /\ f64_ltb (f64_of_Z p) (snd w) = true))
  /\ proporcion_en_ventanas_f64
       [2; 3; 5; 7; 11; 13; 17; 19; 23; 29; 31; 37]
       [(3, 5); (5, 7); (11, 13); (17, 19); (29, 31)] 40
     = inr (map (fun w => f64_div (f64_add (fst w) (snd w)) (f64_of_Z 2))
                (adyacentes [f64_of_Z 0;
                             f64_div (f64_of_Z 40) (f64_of_Z 3);
                             f64_mul (f64_of_Z 2) (f64_div (f64_of_Z 40) (f64_of_Z 3));
                             f64_of_Z 40]),
            [f64_of_Z 1;
             f64_div (f64_of_Z 2) (f64_of_Z 3);
             f64_div (f64_of_Z 2) (f64_of_Z 3)])
  /\ (exists ventanas,
        np_linspace0_f64 478 (Z.min 100 (478 / 10)) = inr ventanas
        /\ nth 23 ventanas (f64_of_Z 0)
           = f64_mul (f64_of_Z 23) (f64_div (f64_of_Z 478) (f64_of_Z 46))
        /\ f64_ltb (f64_of_Z 239) (nth 23 ventanas (f64_of_Z 0)) = true
        /\ en_ventana_f64 (nth 22 ventanas (f64_of_Z 0))
                          (nth 23 ventanas (f64_of_Z 0)) 239 = true
        /\ en_ventana_f64 (nth 23 ventanas (f64_of_Z 0))
                          (nth 24 ventanas (f64_of_Z 0)) 239 = false
        /\ en_ventana (nth 22 (np_linspace0 478 (Z.min 100 (478 / 10))) 0%Q)
                      (nth 23 (np_linspace0 478 (Z.min 100 (478 / 10))) 0%Q) 239
           = false).
Proof.
  split; [|split; [|split]].
  - intros Hlim. unfold proporcion_en_ventanas_f64, np_linspace0_f64.
    assert (limite / 10 < 0) by (apply Z.div_lt_upper_bound; lia).
    by destruct (Z.ltb_spec (Z.min 100 (limite / 10)) 0); [|lia].
  - intros Hlim.
    assert (0 <= limite / 10) by (apply Z.div_pos; lia).
    destruct (np_linspace0_f64_puntos limite (Z.min 100 (limite / 10)))
      as (ventanas & Hv & Hlen & Hlast); [lia|].
    exists ventanas. split; [done|]. split; [done|]. split; [|split].
    + intros H20. apply Hlast.
      assert (2 <= limite / 10) by (apply Z.div_le_lower_bound; lia). lia.
    + by apply proporcion_en_ventanas_f64_filtro.
    + intros w. unfold ventanas_con_primos_f64.
      rewrite filter_In, existsb_exists. unfold en_ventana_f64.
      split.
      * intros [Hw (p & Hp & [H1 H2]%andb_true_iff)]. eauto 6.
      * intros [Hw (p & Hp & H1 & H2)]. split; [done|].
        exists p. split; [done|]. by apply andb_true_iff.
  - vm_compute. reflexivity.
  - eexists. split; [vm_compute; reflexivity|].
    repeat split; vm_compute; reflexivity.
Qed.

(** * Further theorems *)

(** Property X1: [generar_primos limite] lists, in strictly increasing
    order, exactly the primes up to [limite]: every element is prime and
    no prime up to the limit is left out; below 2 the list is empty. *)
Theorem generar_primos_correcto limite :
  StronglySorted Z.lt (generar_primos limite)
  /\ (forall p, In p (generar_primos limite) <-> Z.prime p /\ p <= limite)
  /\ (limite < 2 -> generar_primos limite = []).
Proof.
  split; [apply generar_primos_creciente|]. split.
  - intros p. rewrite In_generar_primos. split.
    + intros [[_ Hle] Hp]. done.
    + intros [Hp Hle]. pose proof (Z.prime_ge_2 p Hp). done.
  - intros Hlt. rewrite generar_primos_filter. by rewrite range_nil by lia.
Qed.

(** Property X2: on a limit of 1 or more [criba_eratostenes] returns, in
    strictly increasing order, exactly the primes up to the limit. *)
Theorem criba_eratostenes_primos limite :
  1 <= limite ->
  exists primos,
    run (criba_eratostenes limite) = ([limite + 1], inr primos)
    /\ StronglySorted Z.lt primos
    /\ forall p, In p primos <-> Z.prime p /\ p <= limite.
Proof.
  intros Hlim. exists (generar_primos limite). split.
  - unfold run. by rewrite criba_eratostenes_correcta.
  - split; [apply generar_primos_creciente|].
    intros p. rewrite In_generar_primos. split.
    + intros [[_ Hle] Hp]. done.
    + intros [Hp Hle]. pose proof (Z.prime_ge_2 p Hp). done.
Qed.

Lemma criba_eratostenes_primos_30 :
  1 <= 30
  /\ exists primos,
       run (criba_eratostenes 30) = ([31], inr primos)
       /\ StronglySorted Z.lt primos
       /\ forall p, In p primos <-> Z.prime p /\ p <= 30.
Proof.
  split; [lia|]. apply (criba_eratostenes_primos 30). lia.
Defined.

(** Property X3: [encontrar_primos_gemelos limite] holds exactly the pairs
    [(p, p + 2)] of primes with [p + 2 <= limite], in strictly increasing
    order of [p]; below 5 there is none. *)
Theorem encontrar_primos_gemelos_correcto limite :
  (forall p q,
     In (p, q) (encontrar_primos_gemelos limite)
     <-> Z.prime p /\ Z.prime q /\ q = p + 2 /\ q <= limite)
  /\ StronglySorted Z.lt (map fst (encontrar_primos_gemelos limite))
  /\ (limite < 5 -> encontrar_primos_gemelos limite = []).
Proof.
  split; [apply In_encontrar_primos_gemelos|].
  split; [apply primeros_gemelos_creciente|].
  intros Hlt. destruct (encontrar_primos_gemelos limite) as [|[p q] t] eqn:Heq; [done|].
  assert (In p (map fst (encontrar_primos_gemelos limite))) as Hin
      by (rewrite Heq; by left).
  pose proof (primer_gemelo_desde_3 _ _ Hin).
  apply In_primeros_gemelos in Hin as (_ & _ & Hle). lia.
Qed.

(** Property X4: on a limit of 1 or more
    [encontrar_primos_gemelos_optimizado] returns exactly the pairs
    [(p, p + 2)] of primes with [p + 2 <= limite], in strictly increasing
    order of [p]. *)
Theorem encontrar_primos_gemelos_optimizado_correcto limite :
  1 <= limite ->
  exists gemelos,
    run (encontrar_primos_gemelos_optimizado limite) = ([limite + 1], inr gemelos)
    /\ (forall p q,
          In (p, q) gemelos <-> Z.prime p /\ Z.prime q /\ q = p + 2 /\ q <= limite)
    /\ StronglySorted Z.lt (map fst gemelos).
Proof.
  intros Hlim. exists (encontrar_primos_gemelos limite). split.
  - unfold run. by rewrite gemelos_optimizado_correcto.
  - split; [apply In_encontrar_primos_gemelos | apply primeros_gemelos_creciente].
Qed.

Lemma encontrar_primos_gemelos_optimizado_correcto_20 :
  1 <= 20
  /\ exists gemelos,
       run (encontrar_primos_gemelos_optimizado 20) = ([21], inr gemelos)
       /\ (forall p q,
             In (p, q) gemelos <-> Z.prime p /\ Z.prime q /\ q = p + 2 /\ q <= 20)
       /\ StronglySorted Z.lt (map fst gemelos).
Proof.
  split; [lia|]. apply (encontrar_primos_gemelos_optimizado_correcto 20). lia.
Defined.

(** Property X5: raising the limit only appends: the primes, and the twin
    pairs, of a limit are a prefix of those of any larger limit, so the
    number of pairs never decreases. *)
Theorem limite_mayor_prefijo limite limite' :
  limite <= limite' ->
  generar_primos limite `prefix_of` generar_primos limite'
  /\ encontrar_primos_gemelos limite `prefix_of` encontrar_primos_gemelos limite'
  /\ len (encontrar_primos_gemelos limite) <= len (encontrar_primos_gemelos limite').
Proof.
  intros Hle. split; [by apply generar_primos_prefix|].
  pose proof (encontrar_primos_gemelos_prefix limite limite' Hle) as Hpre.
  split; [done|]. apply prefix_length in Hpre. unfold len. lia.
Qed.

Lemma limite_mayor_prefijo_10_30 :
  10 <= 30
  /\ generar_primos 10 `prefix_of` generar_primos 30
  /\ encontrar_primos_gemelos 10 `prefix_of` encontrar_primos_gemelos 30
  /\ len (encontrar_primos_gemelos 10) <= len (encontrar_primos_gemelos 30).
Proof.
  split; [lia|]. apply (limite_mayor_prefijo 10 30). lia.
Defined.

(** Property X6: over the pairs either search returns, every distance
    between consecutive pairs is 2 or a multiple of 6 that is at least 6,
    and only the first distance, from (3, 5) to (5, 7), can be 2: all the
    later ones are multiples of 6. *)
Theorem distancias_multiplos_de_6 limite gemelos :
  salida_del_motor limite gemelos ->
  Forall (fun d => d = 2 \/ (6 <= d /\ (6 | d)))
         (distancias (analizar_distancias_entre_gemelos gemelos))
  /\ Forall (fun d => 6 <= d /\ (6 | d))
            (tail (distancias (analizar_distancias_entre_gemelos gemelos))).
Proof.
  intros ->%salida_del_motor_basico. rewrite distancias_primeros. split.
  - apply Forall_forall. intros d Hd%list_elem_of_In%in_map_iff.
    destruct Hd as ([a b] & <- & Hin). simpl.
    apply distancia_entre_gemelos in Hin as [[-> ->]|(_ & H6 & Hdiv)]; [by left | by right].
  - rewrite tail_map, tail_adyacentes.
    apply Forall_forall. intros d Hd%list_elem_of_In%in_map_iff.
    destruct Hd as ([a b] & <- & Hin). simpl.
    by apply (distancias_tras_la_primera limite).
Qed.

Lemma distancias_multiplos_de_6_hasta_50 :
  salida_del_motor 50 [(3, 5); (5, 7); (11, 13); (17, 19); (29, 31); (41, 43)]
  /\ Forall (fun d => d = 2 \/ (6 <= d /\ (6 | d)))
            (distancias (analizar_distancias_entre_gemelos
                           [(3, 5); (5, 7); (11, 13); (17, 19); (29, 31); (41, 43)]))
  /\ Forall (fun d => 6 <= d /\ (6 | d))
            (tail (distancias (analizar_distancias_entre_gemelos
                                 [(3, 5); (5, 7); (11, 13); (17, 19); (29, 31); (41, 43)]))).
Proof.
  assert (salida_del_motor 50 [(3, 5); (5, 7); (11, 13); (17, 19); (29, 31); (41, 43)])
    as H by (right; reflexivity).
  split; [exact H|]. exact (distancias_multiplos_de_6 50 _ H).
Defined.

(** Property X7: the distances of [analizar_distancias_entre_gemelos]
    telescope: their sum is the first prime of the last pair minus the
    first prime of the first pair, for any list of pairs; so the mean
    times the number of distances is that difference. *)
Theorem distancias_telescopicas (gemelos : list (Z * Z)) :
  suma (distancias (analizar_distancias_entre_gemelos gemelos))
  = fst (List.last gemelos (0, 0)) - fst (hd (0, 0) gemelos)
  /\ (2 <= len gemelos ->
      (media (analizar_distancias_entre_gemelos gemelos) * inject_Z (len gemelos - 1)
       == inject_Z (fst (List.last gemelos (0, 0)%Z) - fst (hd (0, 0)%Z gemelos)))%Q).
Proof.
  assert (suma (distancias (analizar_distancias_entre_gemelos gemelos))
          = fst (List.last gemelos (0, 0)) - fst (hd (0, 0) gemelos)) as Hsuma.
  { rewrite distancias_primeros, suma_diferencias.
    by rewrite last_map_fst, hd_map_fst. }
  split; [done|]. intros Hge. rewrite <- Hsuma.
  pose proof (distancias_adyacentes gemelos) as Hds.
  unfold analizar_distancias_entre_gemelos in *.
  destruct (Z.ltb_spec (len gemelos) 2) as [|_]; [lia|].
  simpl distancias in *. simpl media. rewrite Hds.
  set (ds := map (fun par => fst (snd par) - fst (fst par)) (adyacentes gemelos)).
  assert (len ds = len gemelos - 1) as Hlen.
  { unfold ds, len in *. rewrite length_map, length_adyacentes. lia. }
  rewrite <- Hlen. apply np_mean_suma.
  intros H0. rewrite H0 in Hlen. unfold len in *. simpl in Hlen. lia.
Qed.

(** Property X8: over the pairs either search returns, when there are at
    least 2 of them, the mean and the median of the distances that
    [analizar_distancias_entre_gemelos] returns are at least 2, so the
    mean is never 0. *)
Theorem media_y_mediana_desde_2 limite gemelos :
  salida_del_motor limite gemelos ->
  2 <= len gemelos ->
  (2 <= media (analizar_distancias_entre_gemelos gemelos))%Q
  /\ (2 <= mediana (analizar_distancias_entre_gemelos gemelos))%Q.
Proof.
  intros Hsal Hge.
  pose proof Hsal as ->%salida_del_motor_basico.
  pose proof (distancias_gemelos limite) as Hall.
  pose proof (distancias_adyacentes (encontrar_primos_gemelos limite)) as Hds.
  unfold analizar_distancias_entre_gemelos in *.
  destruct (Z.ltb_spec (len (encontrar_primos_gemelos limite)) 2) as [|_]; [lia|].
  simpl distancias in *. simpl media. simpl mediana.
  assert (fold_left
            (fun distancias i =>
               distancias
               ++ [fst (nth (Z.to_nat (i + 1)) (encontrar_primos_gemelos limite) (0, 0))
                   - fst (nth (Z.to_nat i) (encontrar_primos_gemelos limite) (0, 0))])
            (range 0 (len (encontrar_primos_gemelos limite) - 1)) [] <> []) as Hne.
  { rewrite Hds. intros H0. apply (f_equal (@length Z)) in H0.
    rewrite length_map, length_adyacentes in H0. unfold len in Hge.
    simpl in H0. lia. }
  assert (Forall (fun x => 2 <= x)
            (fold_left
               (fun distancias i =>
                  distancias
                  ++ [fst (nth (Z.to_nat (i + 1)) (encontrar_primos_gemelos limite) (0, 0))
                      - fst (nth (Z.to_nat i) (encontrar_primos_gemelos limite) (0, 0))])
               (range 0 (len (encontrar_primos_gemelos limite) - 1)) [])) as Hall2
      by (eapply Forall_impl; [exact Hall | by intros d [_ Hd]]).
  split.
  - by apply (np_mean_cota_inferior 2).
  - by apply (np_median_cota_inferior 2).
Qed.

Lemma media_y_mediana_desde_2_hasta_20 :
  salida_del_motor 20 [(3, 5); (5, 7); (11, 13); (17, 19)]
  /\ 2 <= len [(3, 5); (5, 7); (11, 13); (17, 19)]
  /\ (2 <= media (analizar_distancias_entre_gemelos
                    [(3, 5); (5, 7); (11, 13); (17, 19)]%Z))%Q
  /\ (2 <= mediana (analizar_distancias_entre_gemelos
                      [(3, 5); (5, 7); (11, 13); (17, 19)]%Z))%Q.
Proof.
  assert (salida_del_motor 20 [(3, 5); (5, 7); (11, 13); (17, 19)])
    as H by (right; reflexivity).
  assert (2 <= len [(3, 5); (5, 7); (11, 13); (17, 19)]) as H2 by done.
  split; [exact H|]. split; [exact H2|].
  exact (media_y_mediana_desde_2 20 _ H H2).
Defined.

(** Property X9: the windows of [calcular_densidad] count every pair at
    most once: summing density times window size over the windows gives
    the number of pairs whose first element is in [[0, n * t)], where
    [n = (limite - 1) / t] is the number of windows. *)
Theorem densidad_cuenta_una_vez gemelos limite tam_ventana :
  0 < tam_ventana -> 0 < limite ->
  exists centros densidades,
    calcular_densidad gemelos limite tam_ventana = Some (centros, densidades)
    /\ (fold_right Qplus 0 densidades * inject_Z tam_ventana
        == inject_Z
             (contar (fun p => (0 <=? p)
                               && (p <? (limite - 1) / tam_ventana * tam_ventana))
                     (map fst gemelos)))%Q.
Proof.
  intros Htam Hlim. do 2 eexists. split; [by apply calcular_densidad_barrido|].
  unfold densidad_ventana.
  rewrite (suma_densidades
             (fun w => contar (fun p => (fst w <=? p) && (p <? snd w)) (map fst gemelos)))
    by done.
  unfold ventanas_barridas. rewrite map_map. simpl.
  assert (0 <= (limite - 1) / tam_ventana) as Hn by (apply Z.div_pos; lia).
  rewrite <- (Z2Nat.id ((limite - 1) / tam_ventana)) by done.
  by rewrite contar_ventanas.
Qed.

Lemma densidad_cuenta_una_vez_20 :
  0 < 10 /\ 0 < 20
  /\ exists centros densidades,
       calcular_densidad [(3, 5); (5, 7); (11, 13); (17, 19)] 20 10
       = Some (centros, densidades)
       /\ (fold_right Qplus 0 densidades * inject_Z 10
           == inject_Z
                (contar (fun p => (0 <=? p) && (p <? (20 - 1) / 10 * 10))%Z
                        (map fst [(3, 5); (5, 7); (11, 13); (17, 19)]%Z)))%Q.
Proof.
  split; [lia|]. split; [lia|].
  apply (densidad_cuenta_una_vez [(3, 5); (5, 7); (11, 13); (17, 19)] 20 10); lia.
Defined.

(** Property X10: [calcular_densidad] raises on a window size of 0; with
    a positive window size it returns no sample at all exactly when the
    limit does not exceed the window size; with a negative window size
    and a limit of 0 or more it returns no sample either. *)
Theorem calcular_densidad_sin_ventanas gemelos limite tam_ventana :
  (tam_ventana = 0 -> calcular_densidad gemelos limite tam_ventana = None)
  /\ (0 < tam_ventana ->
      (calcular_densidad gemelos limite tam_ventana = Some ([], [])
       <-> limite <= tam_ventana))
  /\ (tam_ventana < 0 -> 0 <= limite ->
      calcular_densidad gemelos limite tam_ventana = Some ([], [])).
Proof.
  split; [|split].
  - intros ->. reflexivity.
  - intros Htam. rewrite calcular_densidad_barrido by done.
    rewrite <- ventanas_barridas_vacias by done. split.
    + intros [= H0 _]. by destruct (ventanas_barridas limite tam_ventana).
    + by intros ->.
  - intros Htam Hlim. unfold calcular_densidad, np_arange0.
    destruct (Z.eqb_spec tam_ventana 0) as [|_]; [lia|].
    assert (0 <= - limite / tam_ventana).
    { pose proof (Z.div_mod (- limite) tam_ventana ltac:(lia)).
      pose proof (Z.mod_neg_bound (- limite) tam_ventana Htam). nia. }
    rewrite (range_nil 0 (- (- limite / tam_ventana))) by lia.
    reflexivity.
Qed.

(** Property X11: over the pairs either search returns, every density of
    [calcular_densidad] lies between 0 and 1. *)
Theorem densidad_acotada limite' gemelos limite tam_ventana :
  salida_del_motor limite' gemelos ->
  0 < tam_ventana -> 0 < limite ->
  exists centros densidades,
    calcular_densidad gemelos limite tam_ventana = Some (centros, densidades)
    /\ Forall (fun d => 0 <= d /\ d <= 1)%Q densidades.
Proof.
  intros ->%salida_del_motor_basico Htam Hlim.
  do 2 eexists. split; [by apply calcular_densidad_barrido|].
  assert (0 < inject_Z tam_ventana)%Q as Hpos
      by (change 0%Q with (inject_Z 0); by rewrite <- Zlt_Qlt).
  apply Forall_forall. intros d Hd%list_elem_of_In%in_map_iff.
  destruct Hd as (w & <- & Hw). unfold densidad_ventana.
  unfold ventanas_barridas in Hw. apply in_map_iff in Hw as (i & <- & Hi). simpl.
  split.
  - apply Qle_shift_div_l; [done|]. rewrite Qmult_0_l.
    change 0%Q with (inject_Z 0). rewrite <- Zle_Qle. apply contar_nonneg.
  - apply Qle_shift_div_r; [done|]. rewrite Qmult_1_l, <- Zle_Qle.
    pose proof (contar_NoDup (map fst (encontrar_primos_gemelos limite'))
                  (i * tam_ventana) ((i + 1) * tam_ventana)
                  (StronglySorted_lt_NoDup _ (primeros_gemelos_creciente limite'))
                  ltac:(lia)). lia.
Qed.

Lemma densidad_acotada_20 :
  salida_del_motor 20 [(3, 5); (5, 7); (11, 13); (17, 19)]
  /\ 0 < 10 /\ 0 < 20
  /\ exists centros densidades,
       calcular_densidad [(3, 5); (5, 7); (11, 13); (17, 19)] 20 10
       = Some (centros, densidades)
       /\ Forall (fun d => 0 <= d /\ d <= 1)%Q densidades.
Proof.
  assert (salida_del_motor 20 [(3, 5); (5, 7); (11, 13); (17, 19)])
    as H by (right; reflexivity).
  split; [exact H|]. split; [lia|]. split; [lia|].
  exact (densidad_acotada 20 _ 20 10 H ltac:(lia) ltac:(lia)).
Defined.


(** Property X13: on a limit from 0 to 19 the ratio analysis has no
    window, hence no sample: [min(100, limite // 10)] is at most 1. *)
Theorem proporcion_limite_pequeno todos_primos gemelos limite :
  0 <= limite < 20 ->
  proporcion_en_ventanas todos_primos gemelos limite = ([], []).
Proof.
  intros Hlim. rewrite proporcion_en_ventanas_filtro.
  unfold ventanas_con_primos. rewrite ventanas_proporcion_explicitas.
  assert (limite / 10 <= 1) by (apply Z.lt_succ_r, Z.div_lt_upper_bound; lia).
  by rewrite range_nil by lia.
Qed.

Lemma proporcion_limite_pequeno_15 :
  0 <= 15 < 20
  /\ proporcion_en_ventanas [2; 3; 5; 7; 11; 13] [(3, 5); (5, 7); (11, 13)] 15
     = ([], []).
Proof.
  split; [lia|]. apply (proporcion_limite_pequeno _ _ 15). lia.
Defined.



(** Property X15: [PrimosGemelosGUI.generar_primos] shows the error box
    exactly on a limit of 0 or less; on any other limit it stores the same
    pairs whichever method is selected, and no exception of the sieve
    reaches it. *)
Theorem gui_generar_primos_correcto method_var limite :
  gui_generar_primos method_var limite
  = if limite <=? 0 then ErrorLimite
    else Generados (encontrar_primos_gemelos limite).
Proof.
  unfold gui_generar_primos.
  destruct (Z.leb_spec limite 0) as [|Hpos]; [done|].
  destruct method_var; [done|].
  by rewrite optimizado_positivo by lia.
Qed.

(** Property X16: the [assert] of [comparar_rendimiento] never fails: on
    a limit of 1 or more the function returns the number of twin pairs,
    and on a limit of 0 or less it ends with the exception of the
    sieve. *)
Theorem comparar_rendimiento_sin_assert limite :
  comparar_rendimiento limite <> inl AssertionError
  /\ (1 <= limite ->
      comparar_rendimiento limite = inr (len (encontrar_primos_gemelos limite)))
  /\ (limite <= 0 -> exists e, comparar_rendimiento limite = inl (Excepcion e)).
Proof.
  assert (Hpos : 1 <= limite ->
                 comparar_rendimiento limite
                 = inr (len (encontrar_primos_gemelos limite))).
  { intros Hlim. unfold comparar_rendimiento.
    rewrite optimizado_positivo by done. by rewrite Z.eqb_refl. }
  assert (Hneg : limite <= 0 ->
                 exists e, comparar_rendimiento limite = inl (Excepcion e)).
  { intros Hlim. destruct (optimizado_no_positivo limite Hlim) as (e & He).
    exists e. unfold comparar_rendimiento. by rewrite He. }
  split; [|done].
  destruct (Z.le_gt_cases limite 0) as [Hle|Hgt].
  - destruct (Hneg Hle) as (e & ->). done.
  - rewrite Hpos by lia. done.
Qed.

(** Property X17: [exportar_csv] writes nothing when there is no pair or
    the file dialog is cancelled; otherwise, over the pairs either search
    returns, it writes the header and one row per pair, numbered from 1,
    whose second prime is the first plus 2 and whose difference column
    is 2. *)
Theorem exportar_csv_filas limite gemelos (filename : string) :
  salida_del_motor limite gemelos ->
  exportar_csv gemelos filename
  = if decide (gemelos = [] \/ filename = ""%string) then None
    else Some ([Texto "Índice"%string; Texto "Primer Primo"%string;
                Texto "Segundo Primo"%string; Texto "Diferencia"%string]
               :: imap (fun i par =>
                          [Entero (Z.of_nat i + 1); Entero (fst par);
                           Entero (fst par + 2); Entero 2])
                       gemelos).
Proof.
  intros Hdif%salida_del_motor_diferencia. unfold exportar_csv.
  destruct gemelos as [|g t] eqn:Hg; [by rewrite decide_True by auto|].
  rewrite <- Hg in *.
  destruct (String.eqb_spec filename "") as [->|Hne].
  - by rewrite decide_True by auto.
  - rewrite decide_False by (intros [H0|H0]; [by rewrite Hg in H0 | done]).
    do 2 f_equal. apply imap_ext. intros i par Hi. simpl.
    rewrite Forall_lookup in Hdif. specialize (Hdif i par Hi). simpl in Hdif.
    rewrite Hdif. by replace (fst par + 2 - fst par) with 2 by lia.
Qed.

Lemma exportar_csv_filas_10 :
  salida_del_motor 10 [(3, 5); (5, 7)]
  /\ exportar_csv [(3, 5); (5, 7)] "gemelos.csv"
     = Some [[Texto "Índice"%string; Texto "Primer Primo"%string;
              Texto "Segundo Primo"%string; Texto "Diferencia"%string];
             [Entero 1; Entero 3; Entero 5; Entero 2];
             [Entero 2; Entero 5; Entero 7; Entero 2]].
Proof.
  assert (salida_del_motor 10 [(3, 5); (5, 7)]) as H by (right; reflexivity).
  split; [exact H|].
  exact (exportar_csv_filas 10 [(3, 5); (5, 7)] "gemelos.csv" H).
Defined.

(** Property X18: the constant differences that [visualizar_dispersion]
    plots are the real ones: over the pairs either search returns, its
    list of 2s equals the list of [par[1] - par[0]], and has one entry per
    first prime. *)
Theorem dispersion_diferencias_reales limite gemelos :
  salida_del_motor limite gemelos ->
  snd (visualizar_dispersion_datos gemelos)
  = map (fun par => snd par - fst par) gemelos
  /\ length (fst (visualizar_dispersion_datos gemelos))
     = length (snd (visualizar_dispersion_datos gemelos)).
Proof.
  intros Hdif%salida_del_motor_diferencia. unfold visualizar_dispersion_datos. simpl.
  split; [|by rewrite length_map, length_replicate].
  induction Hdif as [|par t Hpar _ IH]; [done|]. simpl.
  rewrite IH. f_equal. lia.
Qed.

Lemma dispersion_diferencias_reales_20 :
  salida_del_motor 20 [(3, 5); (5, 7); (11, 13); (17, 19)]
  /\ snd (visualizar_dispersion_datos [(3, 5); (5, 7); (11, 13); (17, 19)])
     = map (fun par => snd par - fst par) [(3, 5); (5, 7); (11, 13); (17, 19)]
  /\ length (fst (visualizar_dispersion_datos [(3, 5); (5, 7); (11, 13); (17, 19)]))
     = length (snd (visualizar_dispersion_datos [(3, 5); (5, 7); (11, 13); (17, 19)])).
Proof.
  assert (salida_del_motor 20 [(3, 5); (5, 7); (11, 13); (17, 19)])
    as H by (right; reflexivity).
  split; [exact H|]. exact (dispersion_diferencias_reales 20 _ H).
Defined.

(** Property X19: over the pairs either search returns,
    [visualizar_patron_espiral] never reads outside its arrays: every
    cell it highlights has an index from 1 to [limite - 1]; and when the
    pairs were found with a limit no larger than the one plotted, both
    primes of every pair are highlighted. *)
Theorem espiral_en_rango limite' gemelos limite :
  salida_del_motor limite' gemelos ->
  exists celdas,
    visualizar_patron_espiral_celdas gemelos limite = inr celdas
    /\ Forall (fun k => 1 <= Z.of_nat k < limite) celdas
    /\ (limite' <= limite ->
        celdas = map (fun p => Z.to_nat (p - 1)) (primos_en_pares gemelos)).
Proof.
  intros ->%salida_del_motor_basico.
  assert (Forall (fun p => 2 <= p <= limite')
            (primos_en_pares (encontrar_primos_gemelos limite'))) as Hcotas.
  { apply Forall_forall. intros x Hx%list_elem_of_In.
    by apply primos_en_pares_cotas. }
  eexists. split; [|split].
  - unfold visualizar_patron_espiral_celdas. apply resaltar_en_rango; [|lia].
    eapply Forall_impl; [exact Hcotas|]. intros x Hx. simpl in Hx. lia.
  - apply Forall_forall. intros k Hk%list_elem_of_In%in_map_iff.
    destruct Hk as (p & <- & [Hin Hle%Z.leb_le]%filter_In).
    rewrite Forall_forall in Hcotas.
    apply list_elem_of_In, Hcotas in Hin. lia.
  - intros Hle. f_equal. apply List_filter_todos.
    eapply Forall_impl; [exact Hcotas|]. intros x Hx. simpl in Hx.
    apply Z.leb_le. lia.
Qed.

Lemma espiral_en_rango_20 :
  salida_del_motor 10 [(3, 5); (5, 7)]
  /\ exists celdas,
       visualizar_patron_espiral_celdas [(3, 5); (5, 7)] 20 = inr celdas
       /\ Forall (fun k => 1 <= Z.of_nat k < 20) celdas
       /\ (10 <= 20 ->
           celdas = map (fun p => Z.to_nat (p - 1)) (primos_en_pares [(3, 5); (5, 7)])).
Proof.
  assert (salida_del_motor 10 [(3, 5); (5, 7)]) as H by (right; reflexivity).
  split; [exact H|]. exact (espiral_en_rango 10 _ 20 H).
Defined.

(** Property X20: on a non-empty list of distances, the mode that
    [mostrar_estadisticas] reports is a value of the list, its frequency
    is its number of occurrences, no value occurs more often, and among
    the values that occur as often the mode is the one met first. *)
Theorem moda_primera_mas_frecuente (distancias : list Z) :
  distancias <> [] ->
  exists moda freq_moda,
    moda_y_frecuencia distancias = Some (moda, freq_moda)
    /\ In moda distancias
    /\ freq_moda = apariciones moda distancias
    /\ (forall y, apariciones y distancias <= freq_moda)
    /\ (forall y, y <> moda -> apariciones y distancias = freq_moda ->
                  exists pre post, distancias = pre ++ moda :: post /\ ~ In y pre).
Proof.
  intros Hne. unfold moda_y_frecuencia. rewrite Counter_primeras.
  destruct (map (fun k => (k, apariciones k distancias)) (primeras distancias))
    as [|item resto] eqn:Hitems.
  { destruct distancias as [|x xs]; [done|].
    assert (In x (primeras (x :: xs))) as Hx by (apply In_primeras; by left).
    apply (in_map (fun k => (k, apariciones k (x :: xs)))) in Hx.
    by rewrite Hitems in Hx. }
  destruct (max_por_cuenta_primero item resto)
    as (antes & despues & Heq & Hantes & Hdespues).
  rewrite <- Hitems in Heq.
  apply map_eq_app in Heq as (k1 & k2' & Hks & Hk1 & Hk2).
  apply map_eq_cons in Hk2 as (m & k2 & -> & Hm & Hk2).
  rewrite <- Hm in Hantes, Hdespues. simpl in Hantes, Hdespues.
  exists m, (apariciones m distancias). split; [simpl; by rewrite <- Hm|].
  assert (In m distancias) as Hin.
  { apply In_primeras. rewrite Hks. apply in_app_iff. right. by left. }
  assert (Hcasos : forall y, In y distancias ->
             (In y k1 /\ apariciones y distancias < apariciones m distancias)
             \/ y = m
             \/ (In y k2 /\ apariciones y distancias <= apariciones m distancias)).
  { intros y Hy%In_primeras. rewrite Hks in Hy.
    apply in_app_iff in Hy as [Hy|[<-|Hy]]; [left | by right; left | right; right].
    - split; [done|]. rewrite Forall_forall in Hantes.
      apply (Hantes (y, apariciones y distancias)).
      apply list_elem_of_In. rewrite <- Hk1.
      by apply (in_map (fun k => (k, apariciones k distancias))).
    - split; [done|]. rewrite Forall_forall in Hdespues.
      apply (Hdespues (y, apariciones y distancias)).
      apply list_elem_of_In. rewrite <- Hk2.
      by apply (in_map (fun k => (k, apariciones k distancias))). }
  pose proof (apariciones_pos m distancias Hin) as Hpos.
  split; [done|]. split; [done|]. split.
  - intros y. destruct (in_dec Z.eq_dec y distancias) as [Hy|Hy].
    + destruct (Hcasos y Hy) as [[_ H]|[->|[_ H]]]; lia.
    + rewrite (apariciones_cero y) by done. lia.
  - intros y Hym Hfreq.
    assert (In y distancias) as Hy.
    { destruct (in_dec Z.eq_dec y distancias) as [|Hno]; [done|].
      rewrite (apariciones_cero y) in Hfreq by done. lia. }
    destruct (Hcasos y Hy) as [[_ H]|[->|[Hk _]]]; [lia | done |].
    by apply (primeras_orden distancias k1 m k2 y).
Qed.

Lemma moda_primera_mas_frecuente_hasta_50 :
  [2; 6; 6; 12; 12] <> []
  /\ exists moda freq_moda,
       moda_y_frecuencia [2; 6; 6; 12; 12] = Some (moda, freq_moda)
       /\ In moda [2; 6; 6; 12; 12]
       /\ freq_moda = apariciones moda [2; 6; 6; 12; 12]
       /\ (forall y, apariciones y [2; 6; 6; 12; 12] <= freq_moda)
       /\ (forall y, y <> moda -> apariciones y [2; 6; 6; 12; 12] = freq_moda ->
                     exists pre post,
                       [2; 6; 6; 12; 12] = pre ++ moda :: post /\ ~ In y pre).
Proof.
  assert ([2; 6; 6; 12; 12] <> []) as H by discriminate.
  split; [exact H|]. exact (moda_primera_mas_frecuente _ H).
Defined.

(** Property X21: on every limit from 1 on, the sieve and the naive
    generator return the same ordered sequence of primes, and the two
    searches the same ordered sequence of twin pairs; the sieve
    allocates its one array of [N + 1] cells. *)
Theorem criba_igual_que_generar_primos N :
  1 <= N ->
  run (criba_eratostenes N) = ([N + 1], inr (generar_primos N))
  /\ run (encontrar_primos_gemelos_optimizado N)
     = ([N + 1], inr (encontrar_primos_gemelos N)).
Proof.
  intros HN. unfold run. split.
  - by rewrite criba_eratostenes_correcta.
  - by rewrite gemelos_optimizado_correcto.
Qed.

Lemma criba_igual_que_generar_primos_30 :
  1 <= 30
  /\ run (criba_eratostenes 30) = ([31], inr [2; 3; 5; 7; 11; 13; 17; 19; 23; 29])
  /\ run (encontrar_primos_gemelos_optimizado 30)
     = ([31], inr [(3, 5); (5, 7); (11, 13); (17, 19)]).
Proof.
  split; [lia|]. exact (criba_igual_que_generar_primos 30 ltac:(lia)).
Defined.

(** Property X22: how [criba_eratostenes] ends on each limit. On -2 or
    less [np.ones] refuses the negative size with [ValueError] and
    nothing is allocated; on -1 and 0 the array of [limite + 1] cells is
    allocated and the first write out of range raises [IndexError]; on
    every limit from 1 on it returns, with that one array allocated. *)
Theorem criba_eratostenes_fallos limite :
  (limite <= -2 -> run (criba_eratostenes limite) = ([], inl ValueError))
  /\ (-1 <= limite <= 0 ->
      run (criba_eratostenes limite)
      = ([limite + 1], inl (IndexError (limite + 1) (limite + 1))))
  /\ (1 <= limite ->
      exists primos, run (criba_eratostenes limite) = ([limite + 1], inr primos)).
Proof.
  unfold run. split; [|split].
  - intros. by rewrite criba_eratostenes_negativo.
  - intros Hlim.
    assert (limite = -1 \/ limite = 0) as [-> | ->] by lia; reflexivity.
  - intros. exists (generar_primos limite). by rewrite criba_eratostenes_correcta.
Qed.
